(** * rbxts-pretty-react-hooks-browser: [src/index.ts]

  A shallow embedding of the hooks and binding utilities of [src/index.ts]
  and the properties the specification states about them.

  Layout:
  - [Arith]    : the arithmetic of TypeScript's [number], once as IEEE 754
                 binary64 (what the program runs on) and once as exact
                 rationals (what the algebraic laws are about);
  - numeric helpers [blend], [lerp], [map];
  - JavaScript values, the heap and the binding primitives of [@rbxts/react];
  - [isBinding], [toBinding], [mapBinding], [lerpBinding], [composeBindings];
  - the debounce primitive of [@rbxts/set-timeout] and the hooks
    [useLatest], [useUnmountEffect], [useDebounceCallback];
  - the hooks [useLatestCallback] and [useUpdateEffect]. *)

From Stdlib Require Import Bool Arith ZArith List String Lia Permutation.
From Stdlib Require Import Floats QArith Qcanon Field.
Import ListNotations.
Open Scope nat_scope.

Set Implicit Arguments.

(* ================================================================== *)
(** ** Numbers *)
(* ================================================================== *)

(** The operations the numeric helpers use on [number], and the literal
    [1].  index.ts runs them at [double_arith]; [exact_arith] is for the
    laws that hold before rounding. *)
Class Arith (T : Type) : Type := {
  num1 : T;
  nadd : T -> T -> T;
  nsub : T -> T -> T;
  nmul : T -> T -> T;
  ndiv : T -> T -> T
}.

Declare Scope num_scope.
Delimit Scope num_scope with num.
Notation "x + y" := (nadd x y) : num_scope.
Notation "x - y" := (nsub x y) : num_scope.
Notation "x * y" := (nmul x y) : num_scope.
Notation "x / y" := (ndiv x y) : num_scope.

(** [number] as the program has it: IEEE 754 binary64, round to nearest
    even.  Division by zero does not raise; it yields an infinity or NaN. *)
#[export] Instance double_arith : Arith float := {|
  num1 := 1%float;
  nadd := PrimFloat.add;
  nsub := PrimFloat.sub;
  nmul := PrimFloat.mul;
  ndiv := PrimFloat.div
|}.

(** [number] idealised: exact rational arithmetic, no rounding. *)
#[export] Instance exact_arith : Arith Qc := {|
  num1 := 1%Qc;
  nadd := Qcplus;
  nsub := Qcminus;
  nmul := Qcmult;
  ndiv := Qcdiv
|}.

Module Numeric.
Section Helpers.
Context {T : Type} `{Arith T}.
Local Open Scope num_scope.

(** index.ts:72-80
<<
    let result = 1;
    for (const transparency of transparencies) { result *= 1 - transparency; }
    return 1 - result;
>> *)
Definition blend_loop (transparencies : list T) (result : T) : T :=
  fold_left (fun result transparency => result * (num1 - transparency))
            transparencies result.

Definition blend (transparencies : list T) : T :=
  let result := blend_loop transparencies num1 in
  num1 - result.

(** index.ts:128-130 *)
Definition lerp (a b alpha : T) : T :=
  a + (b - a) * alpha.

(** index.ts:162-170. The divisor is [fromMax - fromMin]; nothing guards it. *)
Definition map_divisor (fromMin fromMax : T) : T :=
  fromMax - fromMin.

Definition map (value fromMin fromMax toMin toMax : T) : T :=
  ((value - fromMin) * (toMax - toMin)) / map_divisor fromMin fromMax + toMin.

(** The product the specification speaks of: [(1 - t1) * ... * (1 - tn)]. *)
Definition opacity_product (transparencies : list T) : T :=
  fold_right (fun transparency acc => (num1 - transparency) * acc)
             num1 transparencies.

End Helpers.
End Numeric.

(* ================================================================== *)
(** ** JavaScript values and the heap *)
(* ================================================================== *)

Definition loc := nat.

Section Values.
(** Functions supplied by the caller (combiners, mappers, callbacks,
    methods of caller objects).  What they return is given by [call_fn]
    below; the model records every call. *)
Variable F : Type.

(** Values.  Objects are known by reference, so that "the same object"
    means "the same location": [VObj] for the caller's plain objects,
    [VBinding] for the binding objects [@rbxts/react] hands out.  Arrays
    are only ever built by [joinBindings] and read by spreading; they are
    kept as immutable tuples.  Functions are closures: the caller's, or
    one of the two arrow functions index.ts itself creates and hands on. *)
Local Unset Elimination Schemes.
Inductive value : Type :=
| VUndefined
| VNull
| VBool (b : bool)
| VNum (x : float)
| VStr (s : string)
| VFun (k : closure)
| VArr (elements : list value)
| VObj (l : loc)
| VBinding (l : loc)
with closure : Type :=
| KUser (f : F)
| KSpread (combiner : value)
    (* index.ts:100   (bindings) => combiner(...bindings) *)
| KLerp (from to : value).
    (* index.ts:145   (alpha) => typeof from === "number" ? ... : ... *)
Local Set Elimination Schemes.

(** The binding objects of [@rbxts/react], by kind. *)
Inductive cell : Type :=
| CSource (current : value)
    (* createBinding(current) *)
| CMapped (upstream : loc) (predicate : closure) (cached : value)
    (* upstream.map(predicate) *)
| CJoined (upstreams : list loc) (cached : value).
    (* joinBindings(upstreams) *)

Inductive exn : Type :=
| TypeError
| Thrown (payload : value)
| MisuseFault.

Inductive outcome (A : Type) : Type :=
| Ok (a : A)
| Throw (e : exn).

(** One recorded call of a caller function. *)
Definition call : Type := (F * list value)%type.

(** The state index.ts acts on: the binding objects, in allocation order,
    and the calls made so far. *)
Record state : Type := mkState {
  heap : list cell;
  calls : list call
}.

End Values.

Arguments VUndefined {F}.
Arguments VNull {F}.
Arguments VBool {F} b.
Arguments VNum {F} x.
Arguments VStr {F} s.
Arguments VArr {F} elements.
Arguments VObj {F} l.
Arguments VBinding {F} l.
Arguments TypeError {F}.
Arguments MisuseFault {F}.
Arguments Ok {F A} a.
Arguments Throw {F A} e.
Arguments VFun {F} k.
Arguments KUser {F} f.
Arguments KSpread {F} combiner.
Arguments KLerp {F} from to.
Arguments CSource {F} current.
Arguments CMapped {F} upstream predicate cached.
Arguments CJoined {F} upstreams cached.
Arguments Thrown {F} payload.
Arguments mkState {F} heap calls.

(** The caller's side of the program. *)
Class Host (F : Type) : Type := {
  (** The caller's plain objects, as tables of the properties they expose
      besides those of [Object.prototype].  index.ts reads them ([in],
      method calls) and never writes or creates one. *)
  objects : loc -> option (list (string * value F));
  (** What the caller's functions compute.  They are pure as far as the
      composition layer is concerned (spec 4.2), may raise, and every call
      is recorded in [calls]. *)
  call_fn : F -> list (value F) -> outcome F (value F);
  (** Whether two of the caller's functions are the same function object
      ([===], [Object.is]). *)
  same_fn : F -> F -> bool
}.

Section Program.
Context {F : Type} {host : Host F}.

Local Abbreviation value := (value F).
Local Abbreviation closure := (closure F).
Local Abbreviation cell := (cell F).
Local Abbreviation exn := (exn F).
Local Abbreviation state := (state F).
Local Abbreviation outcome := (outcome F).

(** *** [typeof], [!!] and [in] *)

Inductive jstype : Type :=
| TUndefined | TObject | TBoolean | TNumber | TString | TFunction.

Definition jstype_eqb (a b : jstype) : bool :=
  match a, b with
  | TUndefined, TUndefined | TObject, TObject | TBoolean, TBoolean
  | TNumber, TNumber | TString, TString | TFunction, TFunction => true
  | _, _ => false
  end.

Definition typeof (v : value) : jstype :=
  match v with
  | VUndefined => TUndefined
  | VNull => TObject
  | VBool _ => TBoolean
  | VNum _ => TNumber
  | VStr _ => TString
  | VFun _ => TFunction
  | VArr _ => TObject
  | VObj _ => TObject
  | VBinding _ => TObject
  end.

(** [!!v]: [undefined], [null], [false], [0], [-0], [NaN] and the empty
    string are falsy. *)
Definition truthy (v : value) : bool :=
  match v with
  | VUndefined | VNull => false
  | VBool b => b
  | VNum x => negb (PrimFloat.eqb x 0%float || PrimFloat.is_nan x)
  | VStr s => negb (String.eqb s EmptyString)
  | VFun _ | VArr _ | VObj _ | VBinding _ => true
  end.

(** Property names every object inherits from [Object.prototype]. *)
Definition object_prototype : list string :=
  ["constructor"; "hasOwnProperty"; "isPrototypeOf"; "propertyIsEnumerable";
   "toLocaleString"; "toString"; "valueOf"; "__proto__";
   "__defineGetter__"; "__defineSetter__"; "__lookupGetter__";
   "__lookupSetter__"]%string.

(** Methods of [Array.prototype]. *)
Definition array_prototype : list string :=
  ["length"; "at"; "concat"; "copyWithin"; "entries"; "every"; "fill";
   "filter"; "find"; "findIndex"; "findLast"; "findLastIndex"; "flat";
   "flatMap"; "forEach"; "includes"; "indexOf"; "join"; "keys";
   "lastIndexOf"; "map"; "pop"; "push"; "reduce"; "reduceRight";
   "reverse"; "shift"; "slice"; "some"; "sort"; "splice"; "unshift";
   "values"]%string.

(** The members of the [Binding<T>] interface of [@rbxts/react]:
    [getValue(): T] and [map<U>(predicate: (value: T) => U): Binding<U>]. *)
Definition binding_interface : list string :=
  ["getValue"; "map"]%string.

Definition mem_string (name : string) (names : list string) : bool :=
  existsb (String.eqb name) names.

Fixpoint lookup_field (name : string) (fields : list (string * value))
  : option value :=
  match fields with
  | [] => None
  | (n, v) :: rest => if String.eqb name n then Some v else lookup_field name rest
  end.

Definition own_property (name : string) (l : loc) : bool :=
  match objects l with
  | Some fields =>
      match lookup_field name fields with
      | Some _ => true
      | None => false
      end
  | None => false
  end.

(** [name in v], for a [v] that is an object ([in] on a primitive raises;
    the only use in index.ts is guarded by [typeof v === "object"] and
    [!!v]).  The array case ignores index properties. *)
Definition has_property (name : string) (v : value) : bool :=
  match v with
  | VObj l => own_property name l || mem_string name object_prototype
  | VBinding _ =>
      mem_string name binding_interface || mem_string name object_prototype
  | VArr _ => mem_string name array_prototype || mem_string name object_prototype
  | _ => false
  end.

(* ================================================================ *)
(** ** Computations: state and exceptions *)
(* ================================================================ *)

Definition M (A : Type) : Type := state -> outcome (A * state).

Definition ret {A} (a : A) : M A := fun s => Ok (a, s).

Definition bind {A B} (m : M A) (k : A -> M B) : M B :=
  fun s => match m s with
           | Ok (a, s') => k a s'
           | Throw e => Throw e
           end.

Definition throw {A} (e : exn) : M A := fun _ => Throw e.

Notation "x <- m ;; k" := (bind m (fun x => k))
  (at level 61, m at next level, right associativity).
Notation "m ;;; k" := (bind m (fun _ => k))
  (at level 61, right associativity).

(** [xs.map(f)] for an effectful [f], left to right. *)
Fixpoint mapM {A B} (f : A -> M B) (xs : list A) : M (list B) :=
  match xs with
  | [] => ret []
  | x :: rest => y <- f x ;; ys <- mapM f rest ;; ret (y :: ys)
  end.

Definition get_heap : M (list cell) := fun s => Ok (heap s, s).

Definition alloc (c : cell) : M loc :=
  fun s => Ok (List.length (heap s), mkState (heap s ++ [c]) (calls s)).

Definition cell_at (l : loc) : M cell :=
  fun s => match nth_error (heap s) l with
           | Some c => Ok (c, s)
           | None => Throw TypeError
           end.

(** Overwrite the cell at [l] (which exists whenever this is used). *)
Definition set_nth (l : loc) (c : cell) (h : list cell) : list cell :=
  firstn l h ++ c :: skipn (S l) h.

Definition store (l : loc) (c : cell) : M unit :=
  fun s => Ok (tt, mkState (set_nth l c (heap s)) (calls s)).

(** *** Calling functions *)

Definition call_user (f : F) (args : list value) : M value :=
  fun s => match call_fn f args with
           | Ok v => Ok (v, mkState (heap s) (calls s ++ [(f, args)]))
           | Throw e => Throw e
           end.

(** [callee(...args)].  Callees are the caller's functions; calling a
    value that is not a function is a TypeError.  The two arrow functions
    of index.ts are only ever handed to [map]; a caller that got hold of
    one and passed it back as a combiner or as a method is outside the
    model and is reported as a TypeError as well. *)
Definition call_value (callee : value) (args : list value) : M value :=
  match callee with
  | VFun (KUser f) => call_user f args
  | _ => throw TypeError
  end.

(** [receiver.name(...args)] on a plain object: the method is looked up
    among the fields and receives the receiver first (roblox-ts emits
    [receiver:name(...)], and [Lerpable] declares [this] explicitly). *)
Definition call_method (receiver : value) (name : string) (args : list value)
  : M value :=
  match receiver with
  | VObj l =>
      match objects l with
      | Some fields =>
          match lookup_field name fields with
          | Some callee => call_value callee (receiver :: args)
          | None => throw TypeError
          end
      | None => throw TypeError
      end
  | _ => throw TypeError
  end.

(** Applying a closure.  The arrow functions of index.ts are typed; an
    argument outside its declared type ([alpha] or [to] not a number where
    [from] is one) is reported as a TypeError. *)
Definition apply (k : closure) (args : list value) : M value :=
  match k with
  | KUser f => call_user f args
  | KSpread combiner =>
      (* (bindings) => combiner(...bindings) *)
      match args with
      | VArr bindings :: _ => call_value combiner bindings
      | _ => throw TypeError
      end
  | KLerp from to =>
      (* (alpha) => { if (typeof from === "number") return lerp(from, to, alpha);
                      else return from.Lerp(to, alpha); } *)
      let alpha := hd VUndefined args in
      if jstype_eqb (typeof from) TNumber then
        match from, to, alpha with
        | VNum a, VNum b, VNum t => ret (VNum (Numeric.lerp a b t))
        | _, _, _ => throw TypeError
        end
      else call_method from "Lerp" [to; alpha]
  end.

(* ================================================================ *)
(** ** The binding primitives of [@rbxts/react] *)
(* ================================================================ *)

(** [createBinding], [Binding.getValue], [Binding.map], [joinBindings] and
    the setter [createBinding] returns are the host framework's, not this
    repository's; they are modelled from spec 2-4.  A container holds a
    current value readable synchronously; a derived container caches [f]
    of its sources' values, computed eagerly at creation and recomputed
    whenever a source changes, sources before dependents; a joined
    container's value is the ordered tuple of its sources' values.  Cells
    are allocated in creation order, so every source of a derived cell
    sits at a smaller location. *)

(** Modelled from the spec: the value a container currently holds
    (spec 3, "current value" and "cached last-computed value"). *)
Definition cached (c : cell) : value :=
  match c with
  | CSource v | CMapped _ _ v | CJoined _ v => v
  end.

(** Modelled from the spec: [binding.getValue()] on a framework binding,
    the synchronous read of spec 2. *)
Definition read (l : loc) : M value :=
  c <- cell_at l ;;
  ret (cached c).

(** Modelled from the spec: [createBinding(initial)], the [lift] of
    spec 2.  It returns the pair [binding, setter]; the setter is
    [setBinding] at the returned location. *)
Definition createBinding (initial : value) : M (value * loc) :=
  l <- alloc (CSource initial) ;;
  ret (VBinding l, l).

(** Modelled from the spec: [upstream.map(predicate)] on a framework
    binding, the [derive] of spec 2 and 4.2: the predicate is applied
    to the upstream's value at once and the result is cached. *)
Definition Binding_map (upstream : loc) (predicate : closure) : M value :=
  v <- read upstream ;;
  r <- apply predicate [v] ;;
  l <- alloc (CMapped upstream predicate r) ;;
  ret (VBinding l).

(** Modelled from the spec: [joinBindings] accepts the framework's own
    bindings; anything else is a TypeError. *)
Definition binding_loc (b : value) : M loc :=
  match b with
  | VBinding l => cell_at l ;;; ret l
  | _ => throw TypeError
  end.

(** Modelled from the spec: [joinBindings(bindings)] for an array of
    framework bindings, spec 4.3: a single container whose value is the
    ordered tuple of all source values. *)
Definition joinBindings (bindings : list value) : M value :=
  upstreams <- mapM binding_loc bindings ;;
  vs <- mapM read upstreams ;;
  l <- alloc (CJoined upstreams (VArr vs)) ;;
  ret (VBinding l).

Definition mem_loc (l : loc) (ls : list loc) : bool :=
  existsb (Nat.eqb l) ls.

(** Modelled from the spec: recompute the derived cell at [i] if one of
    its sources changed (spec 3, "recomputation is triggered whenever any
    source notifies a change"); answers the locations changed so far. *)
Definition refresh (i : loc) (dirty : list loc) : M (list loc) :=
  c <- cell_at i ;;
  match c with
  | CMapped upstream predicate _ =>
      if mem_loc upstream dirty then
        v <- read upstream ;;
        r <- apply predicate [v] ;;
        store i (CMapped upstream predicate r) ;;;
        ret (i :: dirty)
      else ret dirty
  | CJoined upstreams _ =>
      if existsb (fun u => mem_loc u dirty) upstreams then
        vs <- mapM read upstreams ;;
        store i (CJoined upstreams (VArr vs)) ;;;
        ret (i :: dirty)
      else ret dirty
  | CSource _ => ret dirty
  end.

(** Modelled from the spec: visit the [n] cells from [i] on, in allocation
    order, so that a dependency is recomputed before its dependents
    (spec 5). *)
Fixpoint rederive (n : nat) (i : loc) (dirty : list loc) : M unit :=
  match n with
  | O => ret tt
  | S n' => dirty' <- refresh i dirty ;; rederive n' (S i) dirty'
  end.

(** Modelled from the spec: the setter of the source binding at [l]. *)
Definition setBinding (l : loc) (v : value) : M unit :=
  c <- cell_at l ;;
  match c with
  | CSource _ =>
      store l (CSource v) ;;;
      h <- get_heap ;;
      rederive (List.length h - S l) (S l) [l]
  | _ => throw TypeError
  end.

(** [binding.getValue()] and [binding.map(callback)] as method calls: on a
    framework binding they are the primitives above, on a plain object
    the object's own field of that name is called. *)
Definition getValue (binding : value) : M value :=
  match binding with
  | VBinding l => read l
  | _ => call_method binding "getValue" []
  end.

Definition invoke_map (binding : value) (callback : closure) : M value :=
  match binding with
  | VBinding l => Binding_map l callback
  | _ => call_method binding "map" [VFun callback]
  end.

(* ================================================================ *)
(** ** index.ts: bindings *)
(* ================================================================ *)

(** index.ts:110-117
<<
    return !!value && typeof value === "object"
        && "getValue" in value && "map" in value;
>> *)
Definition isBinding (val : value) : bool :=
  truthy val
  && jstype_eqb (typeof val) TObject
  && has_property "getValue" val
  && has_property "map" val.

(** index.ts:197-204 *)
Definition toBinding (val : value) : M value :=
  if isBinding val then ret val
  else
    created <- createBinding val ;;
    let result := fst created in
    ret result.

(** index.ts:179-189 *)
Definition mapBinding (binding : value) (callback : closure) : M value :=
  if isBinding binding then invoke_map binding callback
  else
    mapped <- apply callback [binding] ;;
    created <- createBinding mapped ;;
    let result := fst created in
    ret result.

(** index.ts:140-152 *)
Definition lerpBinding (binding from to : value) : M value :=
  mapBinding binding (KLerp from to).

(** [values.pop()]: the last element, or [undefined] for an empty array;
    the array loses it. *)
Definition pop (values : list value) : value * list value :=
  (last values VUndefined, removelast values).

(** index.ts:94-101
<<
    const combiner = values.pop();
    const bindings = values.map(toBinding);
    return joinBindings(bindings).map((bindings) => combiner(...bindings));
>> *)
Definition composeBindings (values : list value) : M value :=
  let (combiner, values) := pop values in
  bindings <- mapM toBinding values ;;
  joined <- joinBindings bindings ;;
  invoke_map joined (KSpread combiner).

(* ================================================================ *)
(** ** Vocabulary for the properties *)
(* ================================================================ *)

(** What a closure returns on [args], and the calls it records, read off
    [apply] in a state of its own. *)
Definition eval (k : closure) (args : list value) : outcome value :=
  match apply k args (mkState [] []) with
  | Ok (v, _) => Ok v
  | Throw e => Throw e
  end.

Definition trace_of (k : closure) (args : list value) : list (call F) :=
  match apply k args (mkState [] []) with
  | Ok (_, s) => calls s
  | Throw _ => []
  end.

Definition value_at (h : list cell) (l : loc) : option value :=
  option_map cached (nth_error h l).

(** What an input of [composeBindings] contributes when the call is made:
    itself when it is a plain value, its current value when it is a binding
    of the framework. *)
Definition current (h : list cell) (x : value) : option value :=
  if isBinding x then
    match x with
    | VBinding l => value_at h l
    | _ => None
    end
  else Some x.

(** The invariant of derived containers (spec 3): the cached value of a
    mapped cell is its predicate at the upstream's value, that of a joined
    cell is the tuple of its upstreams' values, and upstreams were allocated
    earlier. *)
Definition cell_ok (h : list cell) (i : loc) (c : cell) : Prop :=
  match c with
  | CSource _ => True
  | CMapped upstream predicate v =>
      upstream < i /\
      exists u, value_at h upstream = Some u /\ eval predicate [u] = Ok v
  | CJoined upstreams v =>
      Forall (fun u => u < i) upstreams /\
      exists vs, Forall2 (fun u x => value_at h u = Some x) upstreams vs /\
                 v = VArr vs
  end.

Definition consistent (h : list cell) : Prop :=
  forall i c, nth_error h i = Some c -> cell_ok h i c.

(** One use of a framework primitive, or a call that leaves the bindings
    alone.  [sealed] are the source bindings whose setter nobody holds:
    [toBinding] and [mapBinding] keep the binding of the pair
    [createBinding] returns and drop the setter. *)
Inductive step (sealed : loc -> Prop) : state -> state -> Prop :=
| step_create v s r s' :
    createBinding v s = Ok (r, s') -> step sealed s s'
| step_map l k s r s' :
    Binding_map l k s = Ok (r, s') -> step sealed s s'
| step_join bs s r s' :
    joinBindings bs s = Ok (r, s') -> step sealed s s'
| step_set l v s s' :
    ~ sealed l -> setBinding l v s = Ok (tt, s') -> step sealed s s'
| step_call s s' :
    heap s' = heap s -> step sealed s s'.

Inductive evolves (sealed : loc -> Prop) : state -> state -> Prop :=
| evolves_refl s : evolves sealed s s
| evolves_step s1 s2 s3 :
    step sealed s1 s2 -> evolves sealed s2 s3 -> evolves sealed s1 s3.

(** Two cells of the same kind with the same sources and predicate: they
    differ at most in the value they hold. *)
Definition same_shape (c c' : cell) : Prop :=
  match c, c' with
  | CSource _, CSource _ => True
  | CMapped u k _, CMapped u' k' _ => u = u' /\ k = k'
  | CJoined us _, CJoined us' _ => us = us'
  | _, _ => False
  end.

(** [h'] is a later heap than [h]: every binding of [h] is still there, of
    the same shape, and a sealed source still holds the same value. *)
Definition persists (sealed : loc -> Prop) (h h' : list cell) : Prop :=
  forall i c, nth_error h i = Some c ->
    exists c', nth_error h' i = Some c' /\ same_shape c c'
               /\ (forall v, sealed i -> c = CSource v -> c' = c).

(** The loop invariant of [rederive]: [h0] is the heap before the setter of
    [l] ran, [h] the heap when the loop is about to visit [i], [dirty] the
    locations whose value was replaced. *)
Record rederive_inv (l : loc) (h0 h : list cell) (i : loc) (dirty : list loc)
  : Prop := {
  inv_length : List.length h = List.length h0;
  inv_shape : forall j c0, nth_error h0 j = Some c0 ->
      exists c, nth_error h j = Some c /\ same_shape c0 c
                /\ (~ In j dirty -> c = c0);
  inv_dirty : forall j, In j dirty -> j < i;
  inv_done : forall j c, j < i -> nth_error h j = Some c -> cell_ok h j c;
  inv_sources : forall j v, j <> l -> nth_error h0 j = Some (CSource v) ->
      ~ In j dirty
}.

End Program.

(* ================================================================== *)
(** ** Debouncing *)
(* ================================================================== *)

Section Debounce.
Context {F : Type} {host : Host F}.

Local Abbreviation value := (value F).
Local Abbreviation outcome := (outcome F).

(** index.ts:39-44: [UseDebounceOptions] is [DebounceOptions] with an
    optional [wait]; every field is optional.  Durations are counted in
    whole time units and may be negative as given. *)
Record UseDebounceOptions : Type := mkOptions {
  wait : option Z;
  leading : option bool;
  trailing : option bool;
  maxWait : option Z
}.

(** index.ts:228: [options: UseDebounceOptions = {}]. *)
Definition no_options : UseDebounceOptions := mkOptions None None None None.

(** Spec 4.4: Idle, or Pending with the most recent arguments, the time
    the timer fires and the time of the first call of the burst. *)
Inductive phase : Type :=
| Idle
| Pending (args : list value) (fires_at burst_start : Z).

(** Spec 3, DebounceInstance.  [history] is not part of the instance: it
    records the completed invocations of the wrapped callback, oldest
    first, as arguments and result. *)
Record Debounced : Type := mkDebounced {
  cfg_wait : Z;
  cfg_maxWait : option Z;
  cfg_leading : bool;
  cfg_trailing : bool;
  timer : phase;
  lastResult : value;
  history : list (list value * value)
}.

Definition set_timer (p : phase) (d : Debounced) : Debounced :=
  mkDebounced (cfg_wait d) (cfg_maxWait d) (cfg_leading d) (cfg_trailing d)
              p (lastResult d) (history d).

Definition completed (args : list value) (r : value) (d : Debounced)
  : Debounced :=
  mkDebounced (cfg_wait d) (cfg_maxWait d) (cfg_leading d) (cfg_trailing d)
              (timer d) r (history d ++ [(args, r)]).

(** Spec 7, MisuseFault: a negative [wait] or [maxWait], or a [maxWait]
    below [wait], is outside the valid domain. *)
Definition valid_config (w : Z) (m : option Z) : bool :=
  (0 <=? w)%Z &&
  match m with
  | None => true
  | Some m => (0 <=? m)%Z && (w <=? m)%Z
  end.

Definition default {A} (d : A) (o : option A) : A :=
  match o with
  | Some a => a
  | None => d
  end.

(** Modelled from the spec: [debounce(callback, wait, options)] of
    [@rbxts/set-timeout] is not part of this repository.  Spec 7: a
    configuration outside the valid domain is reported when the scheduler
    is constructed.  Spec 4.4: the instance starts Idle; no result has been
    computed yet.  The wrapped callback is not stored here: it is the arrow
    function of index.ts:234-236, which reads [callbackRef.current] each
    time it is called, so the operations below take the callback as it
    stands when they run.  An omitted [wait] counts as 0, an omitted
    [leading] as false, an omitted [trailing] as true. *)
Definition debounce (w : option Z) (options : UseDebounceOptions)
  : outcome Debounced :=
  let w := default 0%Z w in
  if valid_config w (maxWait options) then
    Ok (mkDebounced w (maxWait options)
                    (default false (leading options))
                    (default true (trailing options))
                    Idle VUndefined [])
  else Throw MisuseFault.

(** Invoke the wrapped callback and keep its result. *)
Definition invoke_now (invoke : list value -> outcome value)
           (args : list value) (d : Debounced) : outcome Debounced :=
  match invoke args with
  | Ok r => Ok (completed args r d)
  | Throw e => Throw e
  end.

(** Spec 4.4, timing policy: a call moves the timer to [wait] from now, but
    not beyond [maxWait] from the first call of the burst. *)
Definition fires (d : Debounced) (now burst_start : Z) : Z :=
  match cfg_maxWait d with
  | Some m => Z.min (now + cfg_wait d) (burst_start + m)
  | None => (now + cfg_wait d)%Z
  end.

(** Modelled from the spec: [run(...args)], spec 4.4.  Records the
    arguments and (re)schedules; on the leading edge of a burst invokes at
    once; answers the last computed result. *)
Definition run (invoke : list value -> outcome value) (now : Z)
           (args : list value) (d : Debounced) : outcome (value * Debounced) :=
  match timer d with
  | Idle =>
      match (if cfg_leading d then invoke_now invoke args d else Ok d) with
      | Ok d1 =>
          let d2 := set_timer (Pending args (fires d now now) now) d1 in
          Ok (lastResult d2, d2)
      | Throw e => Throw e
      end
  | Pending _ _ burst_start =>
      let d2 := set_timer (Pending args (fires d now burst_start) burst_start) d in
      Ok (lastResult d2, d2)
  end.

(** Modelled from the spec: [cancel()], spec 4.4. *)
Definition cancel (d : Debounced) : Debounced :=
  match timer d with
  | Pending _ _ _ => set_timer Idle d
  | Idle => d
  end.

(** Modelled from the spec: [flush()], spec 4.4. *)
Definition flush (invoke : list value -> outcome value) (d : Debounced)
  : outcome (value * Debounced) :=
  match timer d with
  | Pending args _ _ =>
      match invoke_now invoke args (set_timer Idle d) with
      | Ok d1 => Ok (lastResult d1, d1)
      | Throw e => Throw e
      end
  | Idle => Ok (lastResult d, d)
  end.

(** Modelled from the spec: [pending()], spec 4.4. *)
Definition pending (d : Debounced) : bool :=
  match timer d with
  | Pending _ _ _ => true
  | Idle => false
  end.

(** Modelled from the spec: the host's timer facility reaching time [now].
    A due timer fires: the trailing edge invokes the callback with the
    pending arguments, and the instance is Idle again. *)
Definition expire (invoke : list value -> outcome value) (now : Z)
           (d : Debounced) : outcome Debounced :=
  match timer d with
  | Pending args fires_at _ =>
      if (fires_at <=? now)%Z then
        if cfg_trailing d then invoke_now invoke args (set_timer Idle d)
        else Ok (set_timer Idle d)
      else Ok d
  | Idle => Ok d
  end.

(* ------------------------------------------------------------------ *)
(** *** index.ts: hooks *)

(** index.ts:119 [isStrictEqual], at the type of callbacks: two function
    values are [===] when they are the same function. *)
Definition isStrictEqual (a b : F) : bool :=
  same_fn a b.

(** index.ts:291-304.  [slot] is what React keeps for this call site
    between renders: [ref.current] and the dependency [value] the memo last
    ran for; [None] on the first render.
<<
      const ref = useRef(value);
      useMemo(() => { if (!predicate(ref.current, value)) ref.current = value; },
              [value]);
      return ref;
>> *)
Definition useLatest {T} (same : T -> T -> bool) (predicate : T -> T -> bool)
           (val : T) (slot : option (T * T)) : T * T :=
  let current := match slot with Some (current, _) => current | None => val end in
  let rerun := match slot with Some (_, dep) => negb (same dep val) | None => true end in
  let current := if rerun then
                   if negb (predicate current val) then val else current
                 else current in
  (current, val).

(** The arrow function of index.ts:242-244, [() => { debounced.cancel(); }].
    Every render makes a new one; all of them cancel the memoised
    [debounced]. *)
Inductive cleanup : Type :=
| KCancel.

(** Modelled from the spec: what the host framework keeps for one call
    site of [useDebounceCallback] between renders.  [useRef], [useMemo] and
    [useEffect] are the framework's; spec 9 has the lifecycle hooks as
    "scoped acquisition of a cleanup action with guaranteed execution on
    teardown": a ref keeps its value, a memo without dependencies keeps
    what it computed on the first render, an effect without dependencies
    arms its cleanup once. *)
Record Hook : Type := mkHook {
  callbackRef : F * F;          (* useLatest(callback)             *)
  debounced : Debounced;        (* useMemo(() => debounce(..), []) *)
  unmountRef : cleanup * cleanup; (* useLatest in useUnmountEffect   *)
  mounted : bool                (* the effect's cleanup is armed   *)
}.

(** index.ts:234-236, [(...args) => callbackRef.current(...args)]. *)
Definition wrapped (h : Hook) (args : list value) : outcome value :=
  call_fn (fst (callbackRef h)) args.

(** index.ts:325-333.  The effect has no dependencies: it is set up once,
    and its cleanup runs when the component unmounts. *)
Definition useUnmountEffect (callback : cleanup)
           (slot : option (cleanup * cleanup)) : cleanup * cleanup :=
  useLatest (fun _ _ => false) (fun _ _ => false) callback slot.

(** index.ts:226-252, first render.  The memo has no dependencies, so
    [debounce] runs now and never again. *)
Definition useDebounceCallback_mount (callback : F)
           (options : UseDebounceOptions) : outcome Hook :=
  let callbackRef := useLatest same_fn isStrictEqual callback None in
  match debounce (wait options) options with
  | Ok debounced =>
      let unmountRef := useUnmountEffect KCancel None in
      Ok (mkHook callbackRef debounced unmountRef true)
  | Throw e => Throw e
  end.

(** index.ts:226-252, any later render: [options] is not looked at again. *)
Definition useDebounceCallback_render (callback : F)
           (options : UseDebounceOptions) (h : Hook) : Hook :=
  let callbackRef := useLatest same_fn isStrictEqual callback (Some (callbackRef h)) in
  let debounced := debounced h in
  let unmountRef := useUnmountEffect KCancel (Some (unmountRef h)) in
  mkHook callbackRef debounced unmountRef (mounted h).

Definition run_cleanup (k : cleanup) (d : Debounced) : Debounced :=
  match k with
  | KCancel => cancel d
  end.

(** Modelled from the spec: the component unmounts, and the framework
    runs the armed cleanup (spec 9, "guaranteed execution on teardown"),
    here [callbackRef.current()] of index.ts:330. *)
Definition unmount (h : Hook) : Hook :=
  if mounted h then
    mkHook (callbackRef h) (run_cleanup (fst (unmountRef h)) (debounced h))
           (unmountRef h) false
  else h.

(** What can happen to a mounted hook: the members of the returned
    [{ run, cancel, flush, pending }], a render, and time passing. *)
Inductive event : Type :=
| ERun (now : Z) (args : list value)
| ECancel
| EFlush
| EPending
| ERender (callback : F) (options : UseDebounceOptions)
| ETick (now : Z).

Definition with_debounced (h : Hook) (d : Debounced) : Hook :=
  mkHook (callbackRef h) d (unmountRef h) (mounted h).

Definition react (e : event) (h : Hook) : outcome (value * Hook) :=
  match e with
  | ERun now args =>
      match run (wrapped h) now args (debounced h) with
      | Ok (r, d) => Ok (r, with_debounced h d)
      | Throw e => Throw e
      end
  | ECancel => Ok (VUndefined, with_debounced h (cancel (debounced h)))
  | EFlush =>
      match flush (wrapped h) (debounced h) with
      | Ok (r, d) => Ok (r, with_debounced h d)
      | Throw e => Throw e
      end
  | EPending => Ok (VBool (pending (debounced h)), h)
  | ERender callback options =>
      Ok (VUndefined, useDebounceCallback_render callback options h)
  | ETick now =>
      match expire (wrapped h) now (debounced h) with
      | Ok d => Ok (VUndefined, with_debounced h d)
      | Throw e => Throw e
      end
  end.

(** A run of events that all return. *)
Inductive reaches : Hook -> list event -> Hook -> Prop :=
| reaches_nil h : reaches h [] h
| reaches_cons h e r h1 es h2 :
    react e h = Ok (r, h1) -> reaches h1 es h2 -> reaches h (e :: es) h2.

(** The result of the most recent completed invocation, [undefined] when
    there is none. *)
Definition latest_result (d : Debounced) : value :=
  match rev (history d) with
  | (_, r) :: _ => r
  | [] => VUndefined
  end.

(** The invariant behind [run]'s answer. *)
Definition result_is_latest (d : Debounced) : Prop :=
  lastResult d = latest_result d.

(** Time passing over an unmounted hook. *)
Fixpoint ticks (nows : list Z) (h : Hook) : outcome Hook :=
  match nows with
  | [] => Ok h
  | now :: rest =>
      match react (ETick now) h with
      | Ok (_, h1) => ticks rest h1
      | Throw e => Throw e
      end
  end.

End Debounce.

Arguments Idle {F}.


(* ================================================================== *)
(** ** A small caller, for running the program *)
(* ================================================================== *)

Module Demo.
Local Open Scope float_scope.
Local Open Scope string_scope.

(** The caller's functions: [(a, b) => a + b], [(x) => x * 2], and the
    callback [(x) => x] used with the debounce hook. *)
Inductive fn : Type :=
| Add
| Twice
| Echo.

Definition fn_eqb (f g : fn) : bool :=
  match f, g with
  | Add, Add | Twice, Twice | Echo, Echo => true
  | _, _ => false
  end.

Definition run_fn (f : fn) (args : list (value fn)) : outcome fn (value fn) :=
  match f, args with
  | Add, [VNum a; VNum b] => Ok (VNum (a + b))
  | Twice, [VNum x] => Ok (VNum (x * 2))
  | Echo, x :: _ => Ok x
  | _, _ => Throw TypeError
  end.

(** The caller's objects: object 0 is not a binding, yet has fields named
    [getValue] and [map]; object 1 has only [getValue]. *)
Definition lookalike : list (string * value fn) :=
  [("getValue", VNum 1); ("map", VStr "road map")].

Definition caller_objects (l : loc) : option (list (string * value fn)) :=
  match l with
  | 0%nat => Some lookalike
  | 1%nat => Some [("getValue", VNum 1)]
  | _ => None
  end.

#[global] Instance host : Host fn := {|
  objects := caller_objects;
  call_fn := run_fn;
  same_fn := fn_eqb
|}.

Definition empty : state fn := mkState [] [].

(** [const [b] = createBinding(4)] *)
Definition four : state fn := mkState [CSource (VNum 4)] [].

(** [const [b] = createBinding(5)] *)
Definition five : state fn := mkState [CSource (VNum 5)] [].

End Demo.

(* ================================================================== *)
(** ** index.ts: the remaining hooks *)
(* ================================================================== *)

Section MoreHooks.
Context {F : Type} {host : Host F}.

Local Abbreviation value := (value F).

(** index.ts:312-319.  [slot] is the ref React keeps for this call site,
    [None] on the first render; the answer is [callbackRef.current] after
    the render.  The memoised function the hook returns is
    [call_latest] at that ref.
<<
      const callbackRef = useRef(callback);
      callbackRef.current = callback;
      return useCallback((...args) => callbackRef.current(...args), []);
>> *)
Definition useLatestCallback (callback : F) (slot : option F) : F :=
  let callbackRef := match slot with Some current => current | None => callback end in
  let callbackRef := callback in
  callbackRef.

Definition call_latest (callbackRef : F) (args : list value) : M value :=
  call_user callbackRef args.

(** The invariant of the pair [useLatest] keeps: the ref holds the value
    of the last render, or one the predicate takes for equal to it. *)
Definition latest_inv {T} (predicate : T -> T -> bool) (slot : T * T) : Prop :=
  fst slot = snd slot \/ predicate (fst slot) (snd slot) = true.

(** The callback of the most recent render among [es], [callback] when
    there was no render since the first. *)
Definition latest_callback (callback : F) (es : list (@event F)) : F :=
  fold_left (fun acc e => match e with
                          | ERender callback' _ => callback'
                          | _ => acc
                          end) es callback.

(** The configuration a scheduler was constructed with. *)
Definition config (d : @Debounced F) : Z * option Z * bool * bool :=
  (cfg_wait d, cfg_maxWait d, cfg_leading d, cfg_trailing d).

(** Dependency arrays, and the framework's comparison of two of them. *)
Variable D : Type.
Variable same_deps : D -> D -> bool.

(** What React keeps for one call site of [useUpdateEffect]: the ref
    [isMounted], the dependencies of the last render ([None] when they
    were omitted) and what the effect callback returned when it last
    fired. *)
Record UpdateSlot : Type := mkUpdateSlot {
  isMounted : bool;
  lastDeps : option D;
  lastCleanup : value
}.

(** Modelled from the spec: whether the framework fires the effect of
    [useEffect(callback, dependencies)] after this render: always after the
    first render and when the dependencies are omitted, otherwise when they
    differ from those of the render before. *)
Definition effect_fires (slot : option UpdateSlot) (dependencies : option D)
  : bool :=
  match slot with
  | None => true
  | Some sl =>
      match lastDeps sl, dependencies with
      | Some old, Some new => negb (same_deps old new)
      | _, _ => true
      end
  end.

(** Modelled from the spec: before an effect fires again the framework
    runs the cleanup its last firing returned, when that is a function. *)
Definition run_last_cleanup (c : value) : M unit :=
  match c with
  | VFun _ => bind (call_value c []) (fun _ => ret tt)
  | _ => ret tt
  end.

(** index.ts:347-353, the effect callback: answers what it returns and
    [isMounted.current] afterwards.
<<
      if (isMounted.current) { return effect(); }
      else { isMounted.current = true; }
>> *)
Definition update_callback (effect : F) (isMounted : bool) : M (value * bool) :=
  if isMounted then bind (call_user effect []) (fun r => ret (r, isMounted))
  else ret (VUndefined, true).

(** index.ts:341-354, one render. *)
Definition useUpdateEffect (effect : F) (dependencies : option D)
           (slot : option UpdateSlot) : M UpdateSlot :=
  let sl := match slot with
            | Some sl => sl
            | None => mkUpdateSlot false None VUndefined   (* useRef(false) *)
            end in
  if effect_fires slot dependencies then
    bind (run_last_cleanup (lastCleanup sl)) (fun _ =>
    bind (update_callback effect (isMounted sl)) (fun rm =>
    ret (mkUpdateSlot (snd rm) dependencies (fst rm))))
  else ret (mkUpdateSlot (isMounted sl) dependencies (lastCleanup sl)).

(** Render after render, each with its own effect and dependencies. *)
Fixpoint update_renders (renders : list (F * option D))
         (slot : option UpdateSlot) : M (option UpdateSlot) :=
  match renders with
  | [] => ret slot
  | (effect, dependencies) :: rest =>
      bind (useUpdateEffect effect dependencies slot) (fun sl =>
      update_renders rest (Some sl))
  end.

(** The effects that run over [renders], in order, when the render before
    them had dependencies [prev]: those of the renders that fire. *)
Fixpoint rerun_effects (prev : option D) (renders : list (F * option D))
  : list (call F) :=
  match renders with
  | [] => []
  | (effect, dependencies) :: rest =>
      let fires := match prev, dependencies with
                   | Some old, Some new => negb (same_deps old new)
                   | _, _ => true
                   end in
      (if fires then [(effect, [])] else []) ++ rerun_effects dependencies rest
  end.

End MoreHooks.

(* ================================================================== *)
(** ** A second caller: objects with methods *)
(* ================================================================== *)

Module Sample.
Local Open Scope string_scope.

(** [Mix] is the [Lerp] method of the caller's vectors, [Remap] the [map]
    method and [Peek] the [getValue] method of a home-made container,
    [Note] an effect without cleanup. *)
Inductive fn : Type :=
| Mix
| Remap
| Peek
| Note.

Definition fn_eqb (f g : fn) : bool :=
  match f, g with
  | Mix, Mix | Remap, Remap | Peek, Peek | Note, Note => true
  | _, _ => false
  end.

(** Objects 0 and 1 are vectors with a [Lerp] method, object 2 is the
    vector [Mix] answers, object 3 is a home-made container and object 4
    has no method at all. *)
Definition caller_objects (l : loc) : option (list (string * value fn)) :=
  match l with
  | 0%nat => Some [("X", VNum 0); ("Lerp", VFun (KUser Mix))]
  | 1%nat => Some [("X", VNum 10); ("Lerp", VFun (KUser Mix))]
  | 2%nat => Some [("X", VNum 5); ("Lerp", VFun (KUser Mix))]
  | 3%nat => Some [("getValue", VFun (KUser Peek)); ("map", VFun (KUser Remap))]
  | 4%nat => Some [("X", VNum 1)]
  | _ => None
  end.

Definition run_fn (f : fn) (args : list (value fn)) : outcome fn (value fn) :=
  match f, args with
  | Mix, [VObj 0%nat; VObj 1%nat; VNum _] => Ok (VObj 2)
  | Remap, [VObj 3%nat; VFun _] => Ok (VObj 3)
  | Peek, [VObj 3%nat] => Ok (VNum 1)
  | Note, [] => Ok VUndefined
  | _, _ => Throw TypeError
  end.

Definition host : Host fn := {|
  objects := caller_objects;
  call_fn := run_fn;
  same_fn := fn_eqb
|}.

Definition empty : state fn := mkState [] [].

End Sample.

(* ------------------------------------------------------------------ *)
(** *** Exact arithmetic *)

Module Exact.
Import Numeric.
Local Open Scope Qc_scope.

(** Expose the rational operations behind the [Arith] interface. *)
Ltac exact_ops :=
  cbv [blend blend_loop opacity_product lerp map map_divisor
       num1 nadd nsub nmul ndiv exact_arith] in *.

Lemma Qc_sub_zero (x y : Qc) : x - y = 0 -> x = y.
Proof.
  intro E. replace x with ((x - y) + y) by ring.
  rewrite E. ring.
Qed.

Lemma blend_loop_scale (ts : list Qc) (r : Qc) :
  blend_loop ts r = r * opacity_product ts.
Proof.
  revert r; induction ts as [|t ts IH]; intros r.
  - exact_ops. cbn. ring.
  - change (blend_loop (t :: ts) r) with (blend_loop ts (r * (1 - t))).
    rewrite IH.
    change (opacity_product (t :: ts)) with ((1 - t) * opacity_product ts).
    ring.
Qed.

Lemma blend_product (ts : list Qc) :
  blend ts = 1 - opacity_product ts.
Proof.
  unfold blend. rewrite blend_loop_scale.
  change (1 - 1 * opacity_product ts = 1 - opacity_product ts). ring.
Qed.

Lemma opacity_product_perm (ts ts' : list Qc) :
  Permutation ts ts' -> opacity_product ts = opacity_product ts'.
Proof.
  induction 1 as [|t l l' _ IH|t u l|l l' l'' _ IH1 _ IH2].
  - reflexivity.
  - change ((1 - t) * opacity_product l = (1 - t) * opacity_product l').
    rewrite IH. reflexivity.
  - change ((1 - u) * ((1 - t) * opacity_product l)
            = (1 - t) * ((1 - u) * opacity_product l)).
    ring.
  - congruence.
Qed.

Lemma map_low (fromMin fromMax toMin toMax : Qc) :
  fromMax <> fromMin ->
  map fromMin fromMin fromMax toMin toMax = toMin.
Proof.
  intros Hne. exact_ops. field.
  intro E. apply Hne, Qc_sub_zero, E.
Qed.

Lemma map_high (fromMin fromMax toMin toMax : Qc) :
  fromMax <> fromMin ->
  map fromMax fromMin fromMax toMin toMax = toMax.
Proof.
  intros Hne. exact_ops. field.
  intro E. apply Hne, Qc_sub_zero, E.
Qed.

Lemma map_divisor_zero (fromMin fromMax : Qc) :
  map_divisor fromMin fromMax = 0 <-> fromMax = fromMin.
Proof.
  exact_ops. split.
  - apply Qc_sub_zero.
  - intros ->. ring.
Qed.

End Exact.

(* ------------------------------------------------------------------ *)
(** *** Binary64 arithmetic: what the program computes *)

Module Double.
Import Numeric.
Local Open Scope float_scope.
Local Set Warnings "-inexact-float".

(** The loop starts from [1]; a leading transparency of [0] multiplies
    by [1 - 0 = 1] and leaves the accumulator at [1]. *)
Lemma blend_zero_head (ts : list float) :
  blend (0 :: ts) = blend ts.
Proof. reflexivity. Qed.

Lemma blend_nil : blend (@nil float) = 0.
Proof. reflexivity. Qed.

(** Rounding: [1 - (1 - 0.1)] is not [0.1]. *)
Lemma blend_tenth : blend [0.1] = 0x1.9999999999998p-4.
Proof. vm_compute. reflexivity. Qed.

Lemma blend_zero_tenth : blend [0; 0.1] = 0x1.9999999999998p-4.
Proof. vm_compute. reflexivity. Qed.

(** Rounding depends on the order of the factors. *)
Lemma blend_order :
  blend [0.1; 0.1; 0.3] <> blend [0.1; 0.3; 0.1].
Proof. vm_compute. discriminate. Qed.

(** Division by zero raises nothing. *)
Lemma map_zero_divisor_infinite : map 1 2 2 0 1 = neg_infinity.
Proof. vm_compute. reflexivity. Qed.

Lemma map_zero_divisor_nan : map 2 2 2 0 1 = nan.
Proof. vm_compute. reflexivity. Qed.

Lemma map_high_rounds : map 1 0 1 0.5 0.1 = 0x1.9999999999998p-4.
Proof. vm_compute. reflexivity. Qed.

Lemma map_low_exact_here : map 0 0 1 0.5 0.1 = 0.5.
Proof. vm_compute. reflexivity. Qed.

End Double.


(* ================================================================== *)
(** ** Bindings: basic facts *)
(* ================================================================== *)

Section BindingFacts.
Context {F : Type} {host : Host F}.

Local Abbreviation value := (value F).
Local Abbreviation state := (state F).
Local Abbreviation M := (@M F).

Lemma bind_ok {A B} (m : M A) (k : A -> M B) s a s1 :
  m s = Ok (a, s1) -> bind m k s = k a s1.
Proof. unfold bind. intros ->. reflexivity. Qed.

Lemma bind_inv {A B} (m : M A) (k : A -> M B) s b s' :
  bind m k s = Ok (b, s') ->
  exists a s1, m s = Ok (a, s1) /\ k a s1 = Ok (b, s').
Proof.
  unfold bind. destruct (m s) as [[a s1]|e]; [|discriminate].
  intros E. exists a, s1. split; [reflexivity | exact E].
Qed.

Lemma nth_error_snoc {A} (h : list A) (c : A) :
  nth_error (h ++ [c]) (List.length h) = Some c.
Proof.
  rewrite nth_error_app2 by lia. rewrite Nat.sub_diag. reflexivity.
Qed.

Lemma nth_error_fresh {A} (h : list A) :
  nth_error h (List.length h) = None.
Proof. apply nth_error_None. lia. Qed.

(** *** What [isBinding] answers, value by value *)

Lemma isBinding_framework (l : loc) : isBinding (VBinding l : value) = true.
Proof. reflexivity. Qed.

Lemma isBinding_object (l : loc) :
  isBinding (VObj l : value)
  = own_property "getValue" l && own_property "map" l.
Proof.
  unfold isBinding, has_property. cbn.
  rewrite !orb_false_r. reflexivity.
Qed.

Lemma isBinding_other (v : value) :
  (forall l, v <> VObj l) -> (forall l, v <> VBinding l) ->
  isBinding v = false.
Proof.
  intros Ho Hb. destruct v; try reflexivity.
  - cbn. destruct b; reflexivity.
  - unfold isBinding. cbn. rewrite andb_false_r. reflexivity.
  - unfold isBinding. cbn. destruct (negb _); reflexivity.
  - exfalso. exact (Ho l eq_refl).
  - exfalso. exact (Hb l eq_refl).
Qed.

Lemma isBinding_inv (v : value) :
  isBinding v = true ->
  (exists l, v = VBinding l) \/
  (exists l, v = VObj l /\ own_property "getValue" l = true
                        /\ own_property "map" l = true).
Proof.
  intros E. destruct v.
  1-7: rewrite isBinding_other in E by (intros; discriminate); discriminate.
  - right. exists l. rewrite isBinding_object in E.
    apply andb_true_iff in E. tauto.
  - left. exists l. reflexivity.
Qed.

(** *** [toBinding] *)

Lemma toBinding_binding (x : value) (s : state) :
  isBinding x = true -> toBinding x s = Ok (x, s).
Proof. unfold toBinding. intros ->. reflexivity. Qed.

Lemma toBinding_plain (x : value) (s : state) :
  isBinding x = false ->
  toBinding x s
  = Ok (VBinding (List.length (heap s)),
        mkState (heap s ++ [CSource x]) (calls s)).
Proof. unfold toBinding. intros ->. reflexivity. Qed.

Lemma getValue_fresh_source (x : value) (h : list (cell F)) (cs : list (call F)) :
  getValue (VBinding (List.length h)) (mkState (h ++ [CSource x]) cs)
  = Ok (x, mkState (h ++ [CSource x]) cs).
Proof.
  unfold getValue, read, bind, cell_at. cbn.
  rewrite nth_error_snoc. reflexivity.
Qed.

(** *** Closures are pure up to the record of calls *)

Ltac split_match :=
  repeat match goal with
         | |- context [match ?x with _ => _ end] => destruct x; cbn
         | |- context [if ?x then _ else _] => destruct x; cbn
         end.

Lemma call_user_spec (f : F) (args : list value) (s : state) :
  call_user f args s =
  match call_fn f args with
  | Ok v => Ok (v, mkState (heap s) (calls s ++ [(f, args)]))
  | Throw e => Throw e
  end.
Proof. reflexivity. Qed.

Lemma apply_spec (k : closure F) (args : list value) (s : state) :
  apply k args s =
  match eval k args with
  | Ok v => Ok (v, mkState (heap s) (calls s ++ trace_of k args))
  | Throw e => Throw e
  end.
Proof.
  destruct s as [h cs].
  unfold eval, trace_of, apply, call_method, call_value, call_user, throw, ret.
  cbn. split_match; rewrite ?app_nil_r; reflexivity.
Qed.

Lemma apply_ok (k : closure F) (args : list value) (s : state) v :
  eval k args = Ok v ->
  apply k args s = Ok (v, mkState (heap s) (calls s ++ trace_of k args)).
Proof. intros E. rewrite apply_spec, E. reflexivity. Qed.

Lemma apply_inv (k : closure F) (args : list value) (s s' : state) v :
  apply k args s = Ok (v, s') ->
  eval k args = Ok v /\ heap s' = heap s
  /\ calls s' = calls s ++ trace_of k args.
Proof.
  rewrite apply_spec. destruct (eval k args) as [w|e]; [|discriminate].
  intros E. injection E as -> <-. auto.
Qed.

Lemma eval_user (f : F) (args : list value) :
  eval (KUser f) args = call_fn f args.
Proof.
  unfold eval, apply, call_user. destruct (call_fn f args); reflexivity.
Qed.

Lemma trace_user (f : F) (args : list value) v :
  call_fn f args = Ok v -> trace_of (KUser f) args = [(f, args)].
Proof.
  unfold trace_of, apply, call_user. intros ->. reflexivity.
Qed.

Lemma eval_spread_user (f : F) (vs : list value) :
  eval (KSpread (VFun (KUser f))) [VArr vs] = call_fn f vs.
Proof.
  unfold eval, apply, call_value, call_user.
  destruct (call_fn f vs); reflexivity.
Qed.

Lemma trace_spread_user (f : F) (vs : list value) v :
  call_fn f vs = Ok v ->
  trace_of (KSpread (VFun (KUser f))) [VArr vs] = [(f, vs)].
Proof.
  unfold trace_of, apply, call_value, call_user. intros ->. reflexivity.
Qed.

Lemma eval_lerp_number (a b t : float) :
  eval (KLerp (VNum a) (VNum b)) [VNum t : value]
  = Ok (VNum (Numeric.lerp a b t)).
Proof. reflexivity. Qed.

Lemma trace_lerp_number (a b t : float) :
  trace_of (KLerp (VNum a) (VNum b)) [VNum t : value] = [].
Proof. reflexivity. Qed.

(** *** [mapBinding] on a plain value *)

Lemma mapBinding_plain (x : value) (f : closure F) (s : state) v :
  isBinding x = false ->
  eval f [x] = Ok v ->
  mapBinding x f s
  = Ok (VBinding (List.length (heap s)),
        mkState (heap s ++ [CSource v]) (calls s ++ trace_of f [x])).
Proof.
  intros Hx Hf. unfold mapBinding. rewrite Hx.
  erewrite bind_ok by (apply apply_ok, Hf). reflexivity.
Qed.

Lemma mapBinding_framework (l : loc) (f : closure F) (s : state) :
  mapBinding (VBinding l) f s = Binding_map l f s.
Proof. reflexivity. Qed.

(** *** The framework primitives, run forward *)

Lemma value_at_some (h : list (cell F)) (l : loc) (u : value) :
  value_at h l = Some u <-> exists c, nth_error h l = Some c /\ cached c = u.
Proof.
  unfold value_at. destruct (nth_error h l) as [c|]; cbn; split.
  - intros E. injection E as <-. eauto.
  - intros (c' & E & <-). injection E as ->. reflexivity.
  - discriminate.
  - intros (c' & E & _). discriminate.
Qed.

Lemma value_at_app (h h' : list (cell F)) (l : loc) (u : value) :
  value_at h l = Some u -> value_at (h ++ h') l = Some u.
Proof.
  unfold value_at. destruct (nth_error h l) as [c|] eqn:E; [|discriminate].
  rewrite nth_error_app1 by (apply nth_error_Some; congruence).
  rewrite E. auto.
Qed.

Lemma read_ok (l : loc) (s : state) (u : value) :
  value_at (heap s) l = Some u -> read l s = Ok (u, s).
Proof.
  intros (c & E & <-)%value_at_some.
  unfold read, bind, cell_at. rewrite E. reflexivity.
Qed.

Lemma read_inv (l : loc) (s s' : state) (u : value) :
  read l s = Ok (u, s') -> value_at (heap s) l = Some u /\ s' = s.
Proof.
  unfold read, bind, cell_at, value_at.
  destruct (nth_error (heap s) l) as [c|]; [|discriminate].
  cbn. intros E. injection E as <- <-. auto.
Qed.

Lemma mapM_read_ok (ls : list loc) (vs : list value) (s : state) :
  Forall2 (fun l v => value_at (heap s) l = Some v) ls vs ->
  mapM read ls s = Ok (vs, s).
Proof.
  induction 1 as [|l v ls vs Hl _ IH]; [reflexivity|].
  cbn [mapM]. erewrite bind_ok by (apply read_ok, Hl).
  erewrite bind_ok by exact IH. reflexivity.
Qed.

Lemma mapM_read_inv (ls : list loc) (vs : list value) (s s' : state) :
  mapM read ls s = Ok (vs, s') ->
  Forall2 (fun l v => value_at (heap s) l = Some v) ls vs /\ s' = s.
Proof.
  revert vs s'; induction ls as [|l ls IH]; intros vs s'; cbn [mapM].
  - intros E. injection E as <- <-. split; constructor.
  - intros (v & s1 & Hr & E)%bind_inv.
    apply read_inv in Hr as [Hv ->].
    apply bind_inv in E as (ws & s2 & Hm & E).
    apply IH in Hm as [Hws ->].
    injection E as <- <-. split; [constructor; assumption | reflexivity].
Qed.

Lemma binding_loc_ok (l : loc) (s : state) :
  l < List.length (heap s) -> binding_loc (VBinding l) s = Ok (l, s).
Proof.
  intros Hl. unfold binding_loc, bind, cell_at.
  destruct (nth_error (heap s) l) eqn:E; [reflexivity|].
  apply nth_error_None in E. lia.
Qed.

Lemma mapM_binding_loc_ok (ls : list loc) (s : state) :
  Forall (fun l => l < List.length (heap s)) ls ->
  mapM binding_loc (List.map VBinding ls) s = Ok (ls, s).
Proof.
  induction 1 as [|l ls Hl _ IH]; [reflexivity|].
  cbn [mapM List.map]. erewrite bind_ok by (apply binding_loc_ok, Hl).
  erewrite bind_ok by exact IH. reflexivity.
Qed.

Lemma value_at_lt (h : list (cell F)) (l : loc) (u : value) :
  value_at h l = Some u -> l < List.length h.
Proof.
  intros (c & E & _)%value_at_some. apply nth_error_Some. congruence.
Qed.

Lemma Binding_map_ok (l : loc) (k : closure F) (s : state) (u v : value) :
  value_at (heap s) l = Some u ->
  eval k [u] = Ok v ->
  Binding_map l k s
  = Ok (VBinding (List.length (heap s)),
        mkState (heap s ++ [CMapped l k v]) (calls s ++ trace_of k [u])).
Proof.
  intros Hu Hk. unfold Binding_map.
  erewrite bind_ok by (apply read_ok, Hu).
  erewrite bind_ok by (apply apply_ok, Hk).
  reflexivity.
Qed.

Lemma joinBindings_ok (ls : list loc) (vs : list value) (s : state) :
  Forall2 (fun l v => value_at (heap s) l = Some v) ls vs ->
  joinBindings (List.map VBinding ls) s
  = Ok (VBinding (List.length (heap s)),
        mkState (heap s ++ [CJoined ls (VArr vs)]) (calls s)).
Proof.
  intros Hvs. unfold joinBindings.
  erewrite bind_ok.
  2:{ apply mapM_binding_loc_ok.
      induction Hvs; constructor; eauto using value_at_lt. }
  erewrite bind_ok by (apply mapM_read_ok, Hvs).
  reflexivity.
Qed.

(** *** [composeBindings] on constants *)

Lemma pop_snoc (xs : list value) (c : value) :
  pop (xs ++ [c]) = (c, xs).
Proof. unfold pop. rewrite last_last, removelast_last. reflexivity. Qed.

Lemma mapM_toBinding_plain (cs : list value) (s : state) :
  Forall (fun c => isBinding c = false) cs ->
  mapM toBinding cs s
  = Ok (List.map VBinding (seq (List.length (heap s)) (List.length cs)),
        mkState (heap s ++ List.map CSource cs) (calls s)).
Proof.
  intros H. revert s. induction H as [|c cs Hc _ IH]; intros s.
  - cbn. rewrite app_nil_r. destruct s; reflexivity.
  - cbn [mapM]. erewrite bind_ok by (apply toBinding_plain, Hc).
    erewrite bind_ok by apply IH.
    cbn. rewrite length_app, Nat.add_1_r, <- app_assoc. reflexivity.
Qed.

Lemma sources_values (h : list (cell F)) (cs : list value) :
  Forall2 (fun l v => value_at (h ++ List.map CSource cs) l = Some v)
          (seq (List.length h) (List.length cs)) cs.
Proof.
  revert h. induction cs as [|c cs IH]; intros h; cbn; constructor.
  - unfold value_at. rewrite nth_error_app2 by lia.
    rewrite Nat.sub_diag. reflexivity.
  - specialize (IH (h ++ [CSource c])).
    rewrite length_app, Nat.add_1_r, <- app_assoc in IH. exact IH.
Qed.

Lemma value_at_snoc (h : list (cell F)) (c : cell F) :
  value_at (h ++ [c]) (List.length h) = Some (cached c).
Proof. unfold value_at. rewrite nth_error_snoc. reflexivity. Qed.

Lemma composeBindings_constants
      (cs : list value) (f : F) (v : value) (s : state) :
  Forall (fun c => isBinding c = false) cs ->
  call_fn f cs = Ok v ->
  exists l s',
    composeBindings (cs ++ [VFun (KUser f)]) s = Ok (VBinding l, s')
    /\ getValue (VBinding l) s' = Ok (v, s')
    /\ calls s' = calls s ++ [(f, cs)].
Proof.
  intros Hcs Hf. unfold composeBindings. rewrite pop_snoc.
  erewrite bind_ok by (apply mapM_toBinding_plain, Hcs).
  erewrite bind_ok
    by (apply joinBindings_ok with (vs := cs); cbn; apply sources_values).
  cbn [invoke_map heap calls].
  erewrite Binding_map_ok;
    [ | cbn [heap]; apply value_at_snoc | cbn [cached]; rewrite eval_spread_user; exact Hf ].
  cbn [heap calls cached]. do 2 eexists. split; [reflexivity|]. split.
  - cbn [getValue]. apply read_ok. cbn [heap]. apply value_at_snoc.
  - cbn [calls]. erewrite trace_spread_user by exact Hf. reflexivity.
Qed.

End BindingFacts.

(* ================================================================== *)
(** ** [composeBindings] on constants and bindings alike *)
(* ================================================================== *)

Section ComposeFacts.
Context {F : Type} {host : Host F}.

Local Abbreviation value := (value F).
Local Abbreviation state := (state F).

Lemma current_app (h h' : list (cell F)) (x u : value) :
  current h x = Some u -> current (h ++ h') x = Some u.
Proof.
  unfold current. destruct (isBinding x); [|auto].
  destruct x; auto using value_at_app.
Qed.

Lemma mapM_toBinding_current (xs us : list value) :
  forall s : state,
  Forall2 (fun x u => current (heap s) x = Some u) xs us ->
  exists ls extra,
    mapM toBinding xs s
    = Ok (List.map VBinding ls, mkState (heap s ++ extra) (calls s))
    /\ Forall2 (fun l u => value_at (heap s ++ extra) l = Some u) ls us.
Proof.
  revert us.
  induction xs as [|x xs IH]; intros us s H;
    inversion H as [|x' u xs' us' Hx Hrest]; subst.
  - exists [], []. cbn. rewrite app_nil_r. destruct s. split; [reflexivity | constructor].
  - cbn [mapM]. unfold current in Hx.
    destruct (isBinding x) eqn:Eb.
    + destruct x as [| | | | | | |l|l]; try discriminate.
      destruct (IH _ _ Hrest) as (ls & extra & Hm & Hv).
      exists (l :: ls), extra.
      erewrite bind_ok by (apply toBinding_binding, Eb).
      erewrite bind_ok by exact Hm.
      split; [reflexivity|]. constructor; [apply value_at_app, Hx | exact Hv].
    + injection Hx as <-.
      set (s1 := mkState (heap s ++ [CSource x]) (calls s)).
      assert (Hrest1 : Forall2 (fun x u => current (heap s1) x = Some u) xs us').
      { subst s1. cbn [heap]. clear - Hrest.
        induction Hrest; constructor; auto using current_app. }
      destruct (IH _ s1 Hrest1) as (ls & extra & Hm & Hv).
      exists (List.length (heap s) :: ls), (CSource x :: extra).
      erewrite bind_ok by (apply toBinding_plain, Eb).
      erewrite bind_ok by exact Hm.
      cbn [heap calls s1] in *. rewrite <- app_assoc in *. cbn [app] in *.
      split; [reflexivity|]. constructor; [|exact Hv].
      unfold value_at. rewrite nth_error_app2 by lia.
      rewrite Nat.sub_diag. reflexivity.
Qed.

Lemma composeBindings_current
      (xs us : list value) (f : F) (v : value) (s : state) :
  Forall2 (fun x u => current (heap s) x = Some u) xs us ->
  call_fn f us = Ok v ->
  exists l s',
    composeBindings (xs ++ [VFun (KUser f)]) s = Ok (VBinding l, s')
    /\ getValue (VBinding l) s' = Ok (v, s')
    /\ calls s' = calls s ++ [(f, us)].
Proof.
  intros Hxs Hf. unfold composeBindings. rewrite pop_snoc.
  destruct (mapM_toBinding_current s Hxs) as (ls & extra & Hm & Hv).
  erewrite bind_ok by exact Hm.
  erewrite bind_ok by (apply joinBindings_ok with (vs := us); exact Hv).
  cbn [invoke_map heap calls].
  erewrite Binding_map_ok;
    [ | cbn [heap]; apply value_at_snoc
      | cbn [cached]; rewrite eval_spread_user; exact Hf ].
  cbn [heap calls cached]. do 2 eexists. split; [reflexivity|]. split.
  - cbn [getValue]. apply read_ok. cbn [heap]. apply value_at_snoc.
  - cbn [calls]. erewrite trace_spread_user by exact Hf. reflexivity.
Qed.

End ComposeFacts.

(* ================================================================== *)
(** ** Propagation of updates keeps derived bindings up to date *)
(* ================================================================== *)

Section Propagation.
Context {F : Type} {host : Host F}.

Local Abbreviation value := (value F).
Local Abbreviation cell := (cell F).
Local Abbreviation state := (state F).

(** *** Overwriting a cell *)

Lemma set_nth_length (i : loc) (c : cell) (h : list cell) :
  i < List.length h -> List.length (set_nth i c h) = List.length h.
Proof.
  intros Hi. unfold set_nth.
  rewrite length_app, firstn_length_le by lia.
  change (List.length (c :: skipn (S i) h))
    with (S (List.length (skipn (S i) h))).
  rewrite length_skipn. lia.
Qed.

Lemma set_nth_same (i : loc) (c : cell) (h : list cell) :
  i < List.length h -> nth_error (set_nth i c h) i = Some c.
Proof.
  intros Hi. unfold set_nth.
  rewrite nth_error_app2 by (rewrite firstn_length_le; lia).
  rewrite firstn_length_le by lia. rewrite Nat.sub_diag. reflexivity.
Qed.

Lemma set_nth_other (i j : loc) (c : cell) (h : list cell) :
  i < List.length h -> j <> i ->
  nth_error (set_nth i c h) j = nth_error h j.
Proof.
  intros Hi Hj. unfold set_nth.
  destruct (Nat.lt_ge_cases j i) as [Hlt|Hge].
  - rewrite nth_error_app1 by (rewrite firstn_length_le; lia).
    rewrite nth_error_firstn.
    apply Nat.ltb_lt in Hlt. rewrite Hlt. reflexivity.
  - rewrite nth_error_app2 by (rewrite firstn_length_le; lia).
    rewrite firstn_length_le by lia.
    destruct (j - i) as [|d] eqn:E; [lia|]. cbn [nth_error].
    rewrite nth_error_skipn. f_equal. lia.
Qed.

Lemma value_at_set_nth_other (i j : loc) (c : cell) (h : list cell) :
  i < List.length h -> j <> i ->
  value_at (set_nth i c h) j = value_at h j.
Proof. intros. unfold value_at. rewrite set_nth_other; auto. Qed.

(** *** [cell_ok] looks below the cell only *)

Lemma Forall2_value_at_agree (h h' : list cell) (i : loc) ups (vs : list value) :
  (forall j, j < i -> value_at h j = value_at h' j) ->
  Forall (fun u => u < i) ups ->
  Forall2 (fun u x => value_at h u = Some x) ups vs ->
  Forall2 (fun u x => value_at h' u = Some x) ups vs.
Proof.
  intros Hag Hups H. induction H as [|u x ups vs Hu _ IH]; constructor.
  - rewrite <- Hag; [exact Hu | now inversion Hups].
  - apply IH. now inversion Hups.
Qed.

Lemma cell_ok_agree (h h' : list cell) (i : loc) (c : cell) :
  (forall j, j < i -> value_at h j = value_at h' j) ->
  cell_ok h i c -> cell_ok h' i c.
Proof.
  intros Hag. destruct c as [v|up k v|ups v]; cbn.
  - trivial.
  - intros (Hup & u & Hu & Hk). split; [exact Hup|].
    exists u. rewrite <- Hag by exact Hup. auto.
  - intros (Hups & vs & Hvs & ->). split; [exact Hups|].
    exists vs. split; [|reflexivity].
    eapply Forall2_value_at_agree; eauto.
Qed.

Lemma cell_ok_app (h h' : list cell) (i : loc) (c : cell) :
  i <= List.length h -> cell_ok h i c -> cell_ok (h ++ h') i c.
Proof.
  intros Hi. apply cell_ok_agree. intros j Hj.
  unfold value_at. rewrite nth_error_app1 by lia. reflexivity.
Qed.

Lemma consistent_snoc (h : list cell) (c : cell) :
  consistent h -> cell_ok (h ++ [c]) (List.length h) c ->
  consistent (h ++ [c]).
Proof.
  intros Hh Hc i c' Hi.
  destruct (Nat.lt_ge_cases i (List.length h)) as [Hlt|Hge].
  - rewrite nth_error_app1 in Hi by exact Hlt.
    apply cell_ok_app; [lia|]. apply Hh, Hi.
  - assert (i = List.length h) as ->.
    { assert (i < List.length (h ++ [c]))
        by (apply nth_error_Some; congruence).
      rewrite length_app in *. cbn in *. lia. }
    rewrite nth_error_snoc in Hi. injection Hi as <-. exact Hc.
Qed.

(** *** One visit of the loop *)

Lemma mem_loc_In (l : loc) (d : list loc) : mem_loc l d = true <-> In l d.
Proof.
  unfold mem_loc. rewrite existsb_exists. split.
  - intros (x & Hx & E). apply Nat.eqb_eq in E. subst. exact Hx.
  - intros H. exists l. split; [exact H | apply Nat.eqb_refl].
Qed.

Lemma mem_loc_not_In (l : loc) (d : list loc) :
  mem_loc l d = false <-> ~ In l d.
Proof.
  rewrite <- mem_loc_In. destruct (mem_loc l d); split; congruence.
Qed.

Lemma clean_upstreams (ups : list loc) (d : list loc) :
  existsb (fun u => mem_loc u d) ups = false ->
  Forall (fun u => ~ In u d) ups.
Proof.
  induction ups as [|u ups IH]; cbn; [constructor|].
  intros [Hu Hr]%orb_false_iff. constructor.
  - apply mem_loc_not_In, Hu.
  - apply IH, Hr.
Qed.

Lemma inv_current (l : loc) (h0 h : list cell) (i : loc) (d : list loc) c :
  rederive_inv l h0 h i d ->
  nth_error h i = Some c -> nth_error h0 i = Some c.
Proof.
  intros I Hc.
  assert (Hi : i < List.length h0).
  { rewrite <- (inv_length I). apply nth_error_Some. congruence. }
  destruct (nth_error h0 i) as [c0|] eqn:E0;
    [|apply nth_error_None in E0; lia].
  destruct (inv_shape I _ E0) as (c' & Hc' & _ & Hsame).
  rewrite Hc in Hc'. injection Hc' as <-.
  rewrite Hsame; [reflexivity|].
  intros Hin. apply (inv_dirty I) in Hin. lia.
Qed.

Lemma inv_clean_value (l : loc) (h0 h : list cell) (i : loc) (d : list loc) u :
  rederive_inv l h0 h i d ->
  ~ In u d -> value_at h u = value_at h0 u.
Proof.
  intros I Hu. unfold value_at.
  destruct (nth_error h0 u) as [c0|] eqn:E0.
  - destruct (inv_shape I _ E0) as (c & Hc & _ & Hsame).
    rewrite Hc, Hsame by exact Hu. reflexivity.
  - apply nth_error_None in E0. rewrite <- (inv_length I) in E0.
    apply nth_error_None in E0. rewrite E0. reflexivity.
Qed.

(** Visiting a cell whose sources did not change: nothing to do. *)
Lemma inv_skip (l : loc) (h0 h : list cell) (i : loc) (d : list loc) c :
  consistent h0 ->
  rederive_inv l h0 h i d ->
  nth_error h i = Some c ->
  (forall u, match c with
             | CSource _ => True
             | CMapped up _ _ => u = up -> ~ In u d
             | CJoined ups _ => In u ups -> ~ In u d
             end) ->
  rederive_inv l h0 h (S i) d.
Proof.
  intros H0 I Hc Hclean.
  pose proof (inv_current I Hc) as Hc0.
  constructor.
  - apply (inv_length I).
  - apply (inv_shape I).
  - intros j Hj. apply (inv_dirty I) in Hj. lia.
  - intros j c' Hj Hc'.
    destruct (Nat.eq_dec j i) as [->|Hne];
      [|apply (inv_done I); [lia | exact Hc']].
    rewrite Hc in Hc'. injection Hc' as <-.
    pose proof (H0 _ _ Hc0) as Hok.
    destruct c as [v|up k v|ups v]; cbn in *.
    + trivial.
    + destruct Hok as (Hup & u & Hu & Hk). split; [exact Hup|].
      exists u. split; [|exact Hk].
      erewrite inv_clean_value by (eauto; apply (Hclean up eq_refl)). exact Hu.
    + destruct Hok as (Hups & vs & Hvs & ->). split; [exact Hups|].
      exists vs. split; [|reflexivity].
      clear Hups Hc Hc0. induction Hvs as [|u x ups vs Hu _ IH]; constructor.
      * erewrite inv_clean_value; [exact Hu | exact I |]. apply Hclean. now left.
      * apply IH. intros u' Hin. apply Hclean. now right.
  - apply (inv_sources I).
Qed.

(** Visiting a derived cell and replacing its value by a recomputed one. *)
Lemma inv_replace (l : loc) (h0 h : list cell) (i : loc) (d : list loc) c c' :
  consistent h0 ->
  rederive_inv l h0 h i d ->
  nth_error h i = Some c ->
  same_shape c c' ->
  (forall v, c <> CSource v) ->
  cell_ok h i c' ->
  rederive_inv l h0 (set_nth i c' h) (S i) (i :: d).
Proof.
  intros H0 I Hc Hshape Hder Hok.
  pose proof (inv_current I Hc) as Hc0.
  assert (Hi : i < List.length h) by (apply nth_error_Some; congruence).
  constructor.
  - rewrite set_nth_length by exact Hi. apply (inv_length I).
  - intros j c0 Hj. destruct (Nat.eq_dec j i) as [->|Hne].
    + exists c'. rewrite set_nth_same by exact Hi.
      rewrite Hc0 in Hj. injection Hj as <-.
      split; [reflexivity|]. split; [exact Hshape|].
      intros Hn. exfalso. apply Hn. now left.
    + rewrite set_nth_other by assumption.
      destruct (inv_shape I _ Hj) as (c1 & Hc1 & Hs & Hsame).
      exists c1. split; [exact Hc1|]. split; [exact Hs|].
      intros Hn. apply Hsame. intros Hin. apply Hn. now right.
  - intros j [<-|Hj]; [lia|]. apply (inv_dirty I) in Hj. lia.
  - intros j c1 Hj Hc1. destruct (Nat.eq_dec j i) as [->|Hne].
    + rewrite set_nth_same in Hc1 by exact Hi. injection Hc1 as <-.
      eapply cell_ok_agree; [|exact Hok].
      intros u Hu. symmetry. apply value_at_set_nth_other; [exact Hi | lia].
    + rewrite set_nth_other in Hc1 by assumption.
      eapply cell_ok_agree; [|apply (inv_done I); [lia | exact Hc1]].
      intros u Hu. symmetry. apply value_at_set_nth_other; [exact Hi | lia].
  - intros j v Hj Hsrc [<-|Hin].
    + rewrite Hc0 in Hsrc. injection Hsrc as ->. exact (Hder v eq_refl).
    + exact (inv_sources I Hj Hsrc Hin).
Qed.

Lemma cell_at_inv (i : loc) (s s' : state) (c : cell) :
  cell_at i s = Ok (c, s') -> nth_error (heap s) i = Some c /\ s' = s.
Proof.
  unfold cell_at. destruct (nth_error (heap s) i); [|discriminate].
  intros E. injection E as <- <-. auto.
Qed.

Lemma refresh_keeps (l : loc) (h0 : list cell) (i : loc) (d d' : list loc)
      (s s' : state) :
  consistent h0 ->
  rederive_inv l h0 (heap s) i d ->
  refresh i d s = Ok (d', s') ->
  rederive_inv l h0 (heap s') (S i) d'.
Proof.
  intros H0 I. unfold refresh.
  intros (c & s1 & [Hc ->]%cell_at_inv & E)%bind_inv.
  pose proof (H0 _ _ (inv_current I Hc)) as Hok.
  destruct c as [v|up k w|ups w].
  - injection E as <- <-. eapply inv_skip; eauto; intros; exact Logic.I.
  - destruct (mem_loc up d) eqn:Hd.
    + apply bind_inv in E as (u & s1 & [Hu ->]%read_inv & E).
      apply bind_inv in E as (r & s2 & (Hk & Hh & _)%apply_inv & E).
      injection E as <- <-. cbn [heap]. rewrite Hh.
      eapply inv_replace; eauto.
      * cbn. auto.
      * intros v; discriminate.
      * cbn. destruct Hok as [Hup _]. split; [exact Hup|]. eauto.
    + injection E as <- <-. eapply inv_skip; eauto.
      intros u ->. apply mem_loc_not_In, Hd.
  - destruct (existsb _ ups) eqn:Hd.
    + apply bind_inv in E as (vs & s1 & [Hvs ->]%mapM_read_inv & E).
      injection E as <- <-. cbn [heap].
      eapply inv_replace; eauto.
      * cbn. auto.
      * intros v; discriminate.
      * cbn. destruct Hok as [Hups _]. split; [exact Hups|]. eauto.
    + injection E as <- <-. eapply inv_skip; eauto.
      intros u Hu. apply clean_upstreams in Hd.
      rewrite Forall_forall in Hd. apply Hd, Hu.
Qed.

Lemma refresh_below (i : loc) (d d' : list loc) (s s' : state) :
  refresh i d s = Ok (d', s') ->
  forall j, j < i -> nth_error (heap s') j = nth_error (heap s) j.
Proof.
  unfold refresh.
  intros (c & s1 & [Hc ->]%cell_at_inv & E)%bind_inv j Hj.
  assert (Hi : i < List.length (heap s)) by (apply nth_error_Some; congruence).
  destruct c as [v|up k w|ups w].
  - injection E as _ <-. reflexivity.
  - destruct (mem_loc up d).
    + apply bind_inv in E as (u & s1 & [Hu ->]%read_inv & E).
      apply bind_inv in E as (r & s2 & (Hk & Hh & _)%apply_inv & E).
      injection E as _ <-. cbn [heap]. rewrite Hh.
      apply set_nth_other; [exact Hi | lia].
    + injection E as _ <-. reflexivity.
  - destruct (existsb _ ups).
    + apply bind_inv in E as (vs & s1 & [Hvs ->]%mapM_read_inv & E).
      injection E as _ <-. cbn [heap].
      apply set_nth_other; [exact Hi | lia].
    + injection E as _ <-. reflexivity.
Qed.

(** *** The whole loop *)

Lemma rederive_keeps (l : loc) (h0 : list cell) (n : nat) :
  consistent h0 ->
  forall (i : loc) (d : list loc) (s s' : state),
  rederive_inv l h0 (heap s) i d ->
  i + n = List.length (heap s) ->
  rederive n i d s = Ok (tt, s') ->
  exists d', rederive_inv l h0 (heap s') (List.length (heap s')) d'.
Proof.
  intros H0. induction n as [|n IH]; intros i d s s' I Hn; cbn [rederive].
  - intros E. injection E as <-. exists d.
    rewrite Nat.add_0_r in Hn. rewrite <- Hn. exact I.
  - intros (d1 & s1 & Hr & E)%bind_inv.
    assert (I1 : rederive_inv l h0 (heap s1) (S i) d1)
      by (eapply refresh_keeps; eauto).
    eapply IH; [exact I1 | | exact E].
    rewrite (inv_length I1), <- (inv_length I). lia.
Qed.

Lemma rederive_below (n : nat) :
  forall (i : loc) (d : list loc) (s s' : state),
  rederive n i d s = Ok (tt, s') ->
  forall j, j < i -> nth_error (heap s') j = nth_error (heap s) j.
Proof.
  induction n as [|n IH]; intros i d s s'; cbn [rederive].
  - intros E. injection E as <-. reflexivity.
  - intros (d1 & s1 & Hr & E)%bind_inv j Hj.
    erewrite IH by (eauto; lia). eapply refresh_below; eauto.
Qed.

(** *** The setter *)

Lemma setter_start (l : loc) (h0 : list cell) (v0 v : value) :
  consistent h0 ->
  nth_error h0 l = Some (CSource v0) ->
  rederive_inv l h0 (set_nth l (CSource v) h0) (S l) [l].
Proof.
  intros H0 Hl.
  assert (Hlt : l < List.length h0) by (apply nth_error_Some; congruence).
  constructor.
  - apply set_nth_length, Hlt.
  - intros j c0 Hj. destruct (Nat.eq_dec j l) as [->|Hne].
    + exists (CSource v). rewrite set_nth_same by exact Hlt.
      rewrite Hl in Hj. injection Hj as <-.
      split; [reflexivity|]. split; [exact Logic.I|].
      intros Hn. exfalso. apply Hn. now left.
    + exists c0. rewrite set_nth_other by assumption.
      split; [exact Hj|]. split; [|reflexivity].
      destruct c0; cbn; auto.
  - intros j [<-|[]]. lia.
  - intros j c Hj Hc. destruct (Nat.eq_dec j l) as [->|Hne].
    + rewrite set_nth_same in Hc by exact Hlt. injection Hc as <-. exact Logic.I.
    + rewrite set_nth_other in Hc by assumption.
      eapply cell_ok_agree; [|apply H0, Hc].
      intros u Hu. symmetry. apply value_at_set_nth_other; [exact Hlt | lia].
  - intros j w Hj _ [<-|[]]. congruence.
Qed.

Lemma setBinding_inv (l : loc) (v : value) (s s' : state) :
  consistent (heap s) ->
  setBinding l v s = Ok (tt, s') ->
  (exists d, rederive_inv l (heap s) (heap s') (List.length (heap s')) d)
  /\ nth_error (heap s') l = Some (CSource v).
Proof.
  intros H0. unfold setBinding.
  intros (c & s1 & [Hc ->]%cell_at_inv & E)%bind_inv.
  destruct c as [v0|up k w|ups w]; try discriminate.
  assert (Hlt : l < List.length (heap s)) by (apply nth_error_Some; congruence).
  unfold bind at 1 in E. cbn [store] in E.
  unfold bind at 1, get_heap in E. cbn [heap] in E.
  split.
  - eapply rederive_keeps; [exact H0 | | | exact E].
    + cbn [heap]. eapply setter_start; eauto.
    + cbn [heap]. rewrite !set_nth_length by exact Hlt. lia.
  - erewrite rederive_below by (eauto; lia).
    cbn [heap]. apply set_nth_same, Hlt.
Qed.

(** *** Every primitive keeps the heap consistent *)

Lemma same_shape_refl (c : cell) : same_shape c c.
Proof. destruct c; cbn; auto. Qed.

Lemma same_shape_trans (c1 c2 c3 : cell) :
  same_shape c1 c2 -> same_shape c2 c3 -> same_shape c1 c3.
Proof.
  destruct c1, c2, c3; cbn; try tauto.
  - intros [-> ->] [-> ->]. auto.
  - congruence.
Qed.

Lemma persists_refl (sealed : loc -> Prop) (h : list cell) :
  persists sealed h h.
Proof. intros i c Hc. exists c. auto using same_shape_refl. Qed.

Lemma persists_trans (sealed : loc -> Prop) (h1 h2 h3 : list cell) :
  persists sealed h1 h2 -> persists sealed h2 h3 -> persists sealed h1 h3.
Proof.
  intros H12 H23 i c1 Hc1.
  destruct (H12 _ _ Hc1) as (c2 & Hc2 & Hs12 & Hk12).
  destruct (H23 _ _ Hc2) as (c3 & Hc3 & Hs23 & Hk23).
  exists c3. split; [exact Hc3|]. split; [eapply same_shape_trans; eauto|].
  intros v Hi ->. rewrite (Hk12 v Hi eq_refl) in *. apply (Hk23 v Hi eq_refl).
Qed.

Lemma persists_app (sealed : loc -> Prop) (h h' : list cell) :
  persists sealed h (h ++ h').
Proof.
  intros i c Hc. exists c.
  rewrite nth_error_app1 by (apply nth_error_Some; congruence).
  auto using same_shape_refl.
Qed.

Lemma createBinding_inv (v : value) (s s' : state) r :
  createBinding v s = Ok (r, s') ->
  r = (VBinding (List.length (heap s)), List.length (heap s))
  /\ heap s' = heap s ++ [CSource v] /\ calls s' = calls s.
Proof. unfold createBinding, bind, alloc, ret. intros E. injection E as <- <-. auto. Qed.

Lemma Binding_map_inv (l : loc) (k : closure F) (s s' : state) (r : value) :
  Binding_map l k s = Ok (r, s') ->
  exists u v, value_at (heap s) l = Some u /\ eval k [u] = Ok v
    /\ r = VBinding (List.length (heap s))
    /\ heap s' = heap s ++ [CMapped l k v]
    /\ calls s' = calls s ++ trace_of k [u].
Proof.
  unfold Binding_map.
  intros (u & s1 & [Hu ->]%read_inv & E)%bind_inv.
  apply bind_inv in E as (v & s2 & (Hk & Hh & Hc)%apply_inv & E).
  unfold bind, alloc, ret in E. injection E as <- <-. cbn [heap calls].
  rewrite Hh, Hc. exists u, v. auto.
Qed.

Lemma mapM_binding_loc_inv (bs : list value) (ls : list loc) (s s' : state) :
  mapM binding_loc bs s = Ok (ls, s') -> s' = s.
Proof.
  revert ls s s'. induction bs as [|b bs IH]; intros ls s s'; cbn [mapM].
  - intros E. injection E as _ <-. reflexivity.
  - intros (l & s1 & Hb & E)%bind_inv.
    apply bind_inv in E as (ls' & s2 & Hm & E).
    injection E as _ <-. apply IH in Hm as ->.
    destruct b; try discriminate. unfold binding_loc in Hb.
    apply bind_inv in Hb as (c & s3 & [_ ->]%cell_at_inv & E).
    injection E as _ <-. reflexivity.
Qed.

Lemma joinBindings_inv (bs : list value) (s s' : state) (r : value) :
  joinBindings bs s = Ok (r, s') ->
  exists ls vs,
    Forall2 (fun l v => value_at (heap s) l = Some v) ls vs
    /\ r = VBinding (List.length (heap s))
    /\ heap s' = heap s ++ [CJoined ls (VArr vs)]
    /\ calls s' = calls s.
Proof.
  unfold joinBindings.
  intros (ls & s1 & ->%mapM_binding_loc_inv & E)%bind_inv.
  apply bind_inv in E as (vs & s2 & [Hvs ->]%mapM_read_inv & E).
  unfold bind, alloc, ret in E. injection E as <- <-.
  exists ls, vs. auto.
Qed.

Lemma Forall2_value_at_lt (h : list cell) (ls : list loc) (vs : list value) :
  Forall2 (fun l v => value_at h l = Some v) ls vs ->
  Forall (fun l => l < List.length h) ls.
Proof. induction 1; constructor; eauto using value_at_lt. Qed.

Lemma Forall2_value_at_app (h h' : list cell) (ls : list loc) (vs : list value) :
  Forall2 (fun l v => value_at h l = Some v) ls vs ->
  Forall2 (fun l v => value_at (h ++ h') l = Some v) ls vs.
Proof. induction 1; constructor; eauto using value_at_app. Qed.

Lemma step_keeps (sealed : loc -> Prop) (s s' : state) :
  consistent (heap s) -> step sealed s s' ->
  consistent (heap s') /\ persists sealed (heap s) (heap s').
Proof.
  intros H0 Hstep. revert H0.
  destruct Hstep as [v s r s' E | l k s r s' E | bs s r s' E | l v s s' Hl E
                    | s s' E];
    intros H0.
  - apply createBinding_inv in E as (_ & -> & _).
    split; [|apply persists_app].
    apply consistent_snoc; [exact H0 | exact Logic.I].
  - apply Binding_map_inv in E as (u & w & Hu & Hk & _ & -> & _).
    split; [|apply persists_app].
    apply consistent_snoc; [exact H0|]. cbn.
    split; [eapply value_at_lt; eauto|].
    exists u. split; [apply value_at_app, Hu | exact Hk].
  - apply joinBindings_inv in E as (ls & vs & Hvs & _ & -> & _).
    split; [|apply persists_app].
    apply consistent_snoc; [exact H0|]. cbn.
    split; [eapply Forall2_value_at_lt; eauto|].
    exists vs. split; [apply Forall2_value_at_app, Hvs | reflexivity].
  - edestruct setBinding_inv as [[d I] _]; [exact H0 | exact E |]. split.
    + intros j c Hc. apply (inv_done I); [|exact Hc].
      apply nth_error_Some. congruence.
    + intros j c Hc. destruct (inv_shape I _ Hc) as (c' & Hc' & Hs & Hsame).
      exists c'. split; [exact Hc'|]. split; [exact Hs|].
      intros w Hj ->. apply Hsame.
      apply (inv_sources I (j := j) (v := w)); [|exact Hc].
      intros ->. exact (Hl Hj).
  - rewrite E. split; [exact H0 | apply persists_refl].
Qed.

Lemma evolves_keeps (sealed : loc -> Prop) (s s' : state) :
  consistent (heap s) -> evolves sealed s s' ->
  consistent (heap s') /\ persists sealed (heap s) (heap s').
Proof.
  intros H0 H. induction H as [s|s1 s2 s3 Hstep _ IH].
  - split; [exact H0 | apply persists_refl].
  - edestruct step_keeps as [H2 P12]; [exact H0 | exact Hstep |].
    destruct (IH H2) as [H3 P23].
    split; [exact H3 | eapply persists_trans; eauto].
Qed.

Lemma consistent_nil : consistent (@nil cell).
Proof. intros [|i] c Hc; discriminate. Qed.

(** *** What a derived and what a sealed binding show later on *)

Lemma mapped_tracks (sealed : loc -> Prop) (l n : loc) (f : closure F)
      (w0 : value) (s s' : state) :
  consistent (heap s) ->
  nth_error (heap s) n = Some (CMapped l f w0) ->
  evolves sealed s s' ->
  exists u w,
    getValue (VBinding l) s' = Ok (u, s')
    /\ getValue (VBinding n) s' = Ok (w, s')
    /\ eval f [u] = Ok w.
Proof.
  intros H0 Hn Hev.
  edestruct evolves_keeps as [H1 P]; [exact H0 | exact Hev |].
  destruct (P _ _ Hn) as (c' & Hc' & Hs & _).
  destruct c' as [|l' f' w|]; cbn in Hs; try contradiction.
  destruct Hs as [<- <-].
  destruct (H1 _ _ Hc') as (_ & u & Hu & Hf).
  exists u, w. split; [apply read_ok, Hu|]. split; [|exact Hf].
  apply read_ok. unfold value_at. rewrite Hc'. reflexivity.
Qed.

Lemma sealed_constant (sealed : loc -> Prop) (l : loc) (v : value)
      (s s' : state) :
  consistent (heap s) ->
  nth_error (heap s) l = Some (CSource v) ->
  sealed l ->
  evolves sealed s s' ->
  getValue (VBinding l) s' = Ok (v, s').
Proof.
  intros H0 Hl Hseal Hev.
  edestruct evolves_keeps as [_ P]; [exact H0 | exact Hev |].
  destruct (P _ _ Hl) as (c' & Hc' & _ & Hk).
  rewrite (Hk v Hseal eq_refl) in Hc'.
  apply read_ok. unfold value_at. rewrite Hc'. reflexivity.
Qed.

End Propagation.

(* ================================================================== *)
(** ** index.ts acts on bindings through the primitives only *)
(* ================================================================== *)

Section Closure.
Context {F : Type} {host : Host F}.

Local Abbreviation value := (value F).
Local Abbreviation state := (state F).

Variable sealed : loc -> Prop.

Lemma evolves_one (s s' : state) : step sealed s s' -> evolves sealed s s'.
Proof. intros H. eapply evolves_step; [exact H | apply evolves_refl]. Qed.

Lemma evolves_trans (s1 s2 s3 : state) :
  evolves sealed s1 s2 -> evolves sealed s2 s3 -> evolves sealed s1 s3.
Proof.
  induction 1 as [s|s1 s2 s2' Hstep _ IH]; [auto|].
  intros H3. eapply evolves_step; [exact Hstep | apply IH, H3].
Qed.

Lemma call_method_heap (receiver : value) (name : string)
      (args : list value) (s s' : state) (v : value) :
  call_method receiver name args s = Ok (v, s') -> heap s' = heap s.
Proof.
  unfold call_method, call_value, call_user, throw.
  destruct receiver; try discriminate.
  destruct (objects l) as [fields|]; [|discriminate].
  destruct (lookup_field name fields) as [[]|]; try discriminate.
  destruct k; try discriminate.
  destruct (call_fn _ _); [|discriminate].
  intros E. injection E as _ <-. reflexivity.
Qed.

Lemma toBinding_evolves (x b : value) (s s' : state) :
  toBinding x s = Ok (b, s') -> evolves sealed s s'.
Proof.
  unfold toBinding. destruct (isBinding x).
  - intros E. injection E as _ <-. apply evolves_refl.
  - intros (c & s1 & Hc & E)%bind_inv. injection E as _ <-.
    eapply evolves_one, step_create, Hc.
Qed.

Lemma mapBinding_evolves (x r : value) (f : closure F) (s s' : state) :
  mapBinding x f s = Ok (r, s') -> evolves sealed s s'.
Proof.
  unfold mapBinding. destruct (isBinding x).
  - destruct x; cbn [invoke_map]; intros E;
      try (apply evolves_one, step_call; eapply call_method_heap; exact E).
    eapply evolves_one, step_map, E.
  - intros (v & s1 & (_ & Hh & _)%apply_inv & E)%bind_inv.
    apply bind_inv in E as (c & s2 & Hc & E). injection E as _ <-.
    eapply evolves_step; [apply step_call, Hh|].
    eapply evolves_one, step_create, Hc.
Qed.

Lemma lerpBinding_evolves (alpha from to r : value) (s s' : state) :
  lerpBinding alpha from to s = Ok (r, s') -> evolves sealed s s'.
Proof. apply mapBinding_evolves. Qed.

Lemma mapM_toBinding_evolves (xs bs : list value) (s s' : state) :
  mapM toBinding xs s = Ok (bs, s') -> evolves sealed s s'.
Proof.
  revert bs s s'. induction xs as [|x xs IH]; intros bs s s'; cbn [mapM].
  - intros E. injection E as _ <-. apply evolves_refl.
  - intros (b & s1 & Hb & E)%bind_inv.
    apply bind_inv in E as (bs' & s2 & Hm & E). injection E as _ <-.
    eapply evolves_trans; [eapply toBinding_evolves, Hb | eapply IH, Hm].
Qed.

Lemma composeBindings_evolves (values : list value) (r : value) (s s' : state) :
  composeBindings values s = Ok (r, s') -> evolves sealed s s'.
Proof.
  unfold composeBindings, pop.
  intros (bs & s1 & Hm & E)%bind_inv.
  apply bind_inv in E as (joined & s2 & Hj & E).
  eapply evolves_trans; [eapply mapM_toBinding_evolves, Hm|].
  eapply evolves_step; [eapply step_join, Hj|].
  apply joinBindings_inv in Hj as (ls & vs & _ & -> & _).
  cbn [invoke_map] in E. eapply evolves_one, step_map, E.
Qed.

End Closure.

(* ================================================================== *)
(** ** The debounce scheduler behind [useDebounceCallback] *)
(* ================================================================== *)

Section DebounceFacts.
Context {F : Type} {host : Host F}.

Local Abbreviation value := (value F).
Local Abbreviation Debounced := (@Debounced F).
Local Abbreviation Hook := (@Hook F).

(** *** Construction *)

Lemma invalid_config (w : Z) (m : option Z) :
  valid_config w m = false <->
  (w < 0)%Z \/ exists m', m = Some m' /\ ((m' < 0)%Z \/ (m' < w)%Z).
Proof.
  unfold valid_config. destruct m as [m'|].
  - rewrite !andb_false_iff, !Z.leb_gt. split.
    + intros [H|[H|H]]; [left; exact H | right; exists m'; auto ..].
    + intros [H|(m'' & E & [H|H])]; [left; exact H | injection E as <-; auto ..].
  - rewrite andb_true_r, Z.leb_gt. split; [auto|].
    intros [H|(m'' & E & _)]; [exact H | discriminate].
Qed.

Lemma mount_spec (callback : F) (options : UseDebounceOptions) :
  useDebounceCallback_mount callback options =
  if valid_config (default 0%Z (wait options)) (maxWait options) then
    Ok (mkHook (callback, callback)
               (mkDebounced (default 0%Z (wait options)) (maxWait options)
                            (default false (leading options))
                            (default true (trailing options))
                            Idle VUndefined [])
               (KCancel, KCancel) true)
  else Throw MisuseFault.
Proof.
  unfold useDebounceCallback_mount, debounce, useUnmountEffect, useLatest.
  cbn. destruct (valid_config _ _); [|reflexivity].
  destruct (isStrictEqual callback callback); reflexivity.
Qed.

(** The hook adds no check of its own: its first render fails exactly
    when [debounce] does, and with the same fault. *)
Lemma mount_throw_iff (callback : F) (options : UseDebounceOptions) e :
  useDebounceCallback_mount callback options = Throw e
  <-> debounce (wait options) options = Throw e.
Proof.
  unfold useDebounceCallback_mount.
  destruct (debounce (wait options) options) as [d|e']; split;
    intros E; try discriminate; injection E as ->; reflexivity.
Qed.

(** [run], [flush] and the timer raise only what the callback raised. *)
Lemma invoke_now_throw (invoke : list value -> outcome F value)
      (args : list value) (d : Debounced) e :
  invoke_now invoke args d = Throw e -> invoke args = Throw e.
Proof.
  unfold invoke_now. destruct (invoke args); [discriminate|].
  intros E. injection E as <-. reflexivity.
Qed.

Lemma react_throw (ev : event) (h : Hook) e :
  react ev h = Throw e -> exists args, wrapped h args = Throw e.
Proof.
  destruct ev as [now args| | | |cb opts|now]; cbn; try discriminate.
  - unfold run. destruct (timer (debounced h)) as [|pargs fa bs]; [|discriminate].
    destruct (cfg_leading (debounced h)); [|discriminate].
    destruct (invoke_now _ _ _) as [d1|e'] eqn:E; [discriminate|].
    intros X. injection X as <-. eauto using invoke_now_throw.
  - unfold flush. destruct (timer (debounced h)) as [|pargs fa bs]; [discriminate|].
    destruct (invoke_now _ _ _) as [d1|e'] eqn:E; [discriminate|].
    intros X. injection X as <-. eauto using invoke_now_throw.
  - unfold expire. destruct (timer (debounced h)) as [|pargs fa bs]; [discriminate|].
    destruct (_ <=? _)%Z; [|discriminate].
    destruct (cfg_trailing _); [|discriminate].
    destruct (invoke_now _ _ _) as [d1|e'] eqn:E; [discriminate|].
    intros X. injection X as <-. eauto using invoke_now_throw.
Qed.

(** *** The last result is the result of the latest invocation *)

Lemma latest_completed (args : list value) (r : value) (d : Debounced) :
  latest_result (completed args r d) = r.
Proof. unfold latest_result, completed. cbn. rewrite rev_app_distr. reflexivity. Qed.

Lemma invoke_now_latest invoke (args : list value) (d d1 : Debounced) :
  invoke_now invoke args d = Ok d1 ->
  result_is_latest d1 /\ timer d1 = timer d
  /\ exists r, history d1 = history d ++ [(args, r)].
Proof.
  unfold invoke_now. destruct (invoke args) as [r|]; [|discriminate].
  intros E. injection E as <-. unfold result_is_latest.
  rewrite latest_completed. cbn. eauto.
Qed.

Lemma set_timer_latest (p : @phase F) (d : Debounced) :
  result_is_latest d -> result_is_latest (set_timer p d).
Proof. unfold result_is_latest, latest_result. cbn. auto. Qed.

Lemma run_latest invoke now (args : list value) (d d' : Debounced) r :
  result_is_latest d ->
  run invoke now args d = Ok (r, d') ->
  result_is_latest d' /\ r = lastResult d'.
Proof.
  intros Hd. unfold run. destruct (timer d) as [|pargs fa bs].
  - destruct (cfg_leading d).
    + destruct (invoke_now invoke args d) as [d1|] eqn:E; [|discriminate].
      intros X. injection X as <- <-.
      apply invoke_now_latest in E as (H1 & _). split; [|reflexivity].
      apply set_timer_latest, H1.
    + intros X. injection X as <- <-. split; [|reflexivity].
      apply set_timer_latest, Hd.
  - intros X. injection X as <- <-. split; [|reflexivity].
    apply set_timer_latest, Hd.
Qed.

Lemma cancel_latest (d : Debounced) :
  result_is_latest d -> result_is_latest (cancel d).
Proof.
  unfold cancel. destruct (timer d); auto using set_timer_latest.
Qed.

Lemma flush_latest invoke (d d' : Debounced) r :
  result_is_latest d ->
  flush invoke d = Ok (r, d') ->
  result_is_latest d'.
Proof.
  intros Hd. unfold flush. destruct (timer d) as [|pargs fa bs].
  - intros X. injection X as <- <-. exact Hd.
  - destruct (invoke_now _ _ _) as [d1|] eqn:E; [|discriminate].
    intros X. injection X as <- <-. apply invoke_now_latest in E. tauto.
Qed.

Lemma expire_latest invoke now (d d' : Debounced) :
  result_is_latest d ->
  expire invoke now d = Ok d' ->
  result_is_latest d'.
Proof.
  intros Hd. unfold expire. destruct (timer d) as [|pargs fa bs].
  - intros X. injection X as <-. exact Hd.
  - destruct (_ <=? _)%Z; [|intros X; injection X as <-; exact Hd].
    destruct (cfg_trailing d).
    + intros E. apply invoke_now_latest in E. tauto.
    + intros X. injection X as <-. apply set_timer_latest, Hd.
Qed.

Lemma react_latest (ev : event) (h h' : Hook) r :
  result_is_latest (debounced h) ->
  react ev h = Ok (r, h') ->
  result_is_latest (debounced h') /\ mounted h' = mounted h.
Proof.
  intros Hd. destruct ev as [now args| | | |cb opts|now]; cbn.
  - destruct (run _ _ _ _) as [[r' d]|] eqn:E; [|discriminate].
    intros X. injection X as <- <-. cbn.
    apply run_latest in E; tauto.
  - intros X. injection X as <- <-. cbn. auto using cancel_latest.
  - destruct (flush _ _) as [[r' d]|] eqn:E; [|discriminate].
    intros X. injection X as <- <-. cbn.
    apply flush_latest in E; auto.
  - intros X. injection X as <- <-. auto.
  - intros X. injection X as <- <-. cbn. auto.
  - destruct (expire _ _ _) as [d|] eqn:E; [|discriminate].
    intros X. injection X as <- <-. cbn.
    apply expire_latest in E; auto.
Qed.

Lemma mount_latest (callback : F) (options : UseDebounceOptions) (h : Hook) :
  useDebounceCallback_mount callback options = Ok h ->
  result_is_latest (debounced h) /\ mounted h = true
  /\ timer (debounced h) = Idle /\ history (debounced h) = [].
Proof.
  rewrite mount_spec. destruct (valid_config _ _); [|discriminate].
  intros X. injection X as <-. cbn. unfold result_is_latest. cbn. auto.
Qed.

Lemma reaches_latest (h : Hook) (es : list event) (h' : Hook) :
  reaches h es h' ->
  result_is_latest (debounced h) ->
  result_is_latest (debounced h') /\ mounted h' = mounted h.
Proof.
  induction 1 as [h|h e r h1 es h2 Hstep _ IH]; intros Hd; [auto|].
  destruct (react_latest e h Hd Hstep) as [H1 Hm].
  destruct (IH H1) as [H2 Hm2]. split; [exact H2 | congruence].
Qed.

(** *** After the owner is gone *)

Lemma cancel_idle (d : Debounced) : timer (cancel d) = Idle.
Proof. unfold cancel. destruct (timer d) eqn:E; [exact E | reflexivity]. Qed.

Lemma cancel_history (d : Debounced) : history (cancel d) = history d.
Proof. unfold cancel. destruct (timer d); reflexivity. Qed.

Lemma cancel_result (d : Debounced) : lastResult (cancel d) = lastResult d.
Proof. unfold cancel. destruct (timer d); reflexivity. Qed.

Lemma ticks_idle (nows : list Z) (h : Hook) :
  timer (debounced h) = Idle ->
  ticks nows h = Ok h.
Proof.
  intros Hidle. induction nows as [|now rest IH]; [reflexivity|].
  cbn [ticks react]. unfold expire. rewrite Hidle.
  replace (with_debounced h (debounced h)) with h by (destruct h; reflexivity).
  exact IH.
Qed.

End DebounceFacts.

(* ================================================================== *)
(** ** The statements of the specification *)
(* ================================================================== *)

#[local] Set Warnings "-inexact-float".

(** C1.  [composeBindings] applied to constant (non-binding) inputs
    followed by a combiner returns a binding whose value is the combiner
    applied to the constants, positionally and in the order given; the
    combiner is called once.  More generally every input contributes its
    current value, a binding its [getValue()].  In particular
    [composeBindings(3, binding-of-4, (a, b) => a + b)] starts at 7. *)
Theorem composeBindings_applies_combiner :
  (forall (F : Type) (host : Host F) (f : F) (v : value F) (s : state F)
          (cs : list (value F)),
      Forall (fun c => isBinding c = false) cs ->
      call_fn f cs = Ok v ->
      exists l s',
        composeBindings (cs ++ [VFun (KUser f)]) s = Ok (VBinding l, s')
        /\ getValue (VBinding l) s' = Ok (v, s')
        /\ calls s' = calls s ++ [(f, cs)])
  /\
  (forall (F : Type) (host : Host F) (f : F) (v : value F) (s : state F)
          (xs us : list (value F)),
      Forall2 (fun x u => current (heap s) x = Some u) xs us ->
      call_fn f us = Ok v ->
      exists l s',
        composeBindings (xs ++ [VFun (KUser f)]) s = Ok (VBinding l, s')
        /\ getValue (VBinding l) s' = Ok (v, s')
        /\ calls s' = calls s ++ [(f, us)])
  /\
  (exists l s',
      composeBindings [VNum 3; VBinding 0; VFun (KUser Demo.Add)] Demo.four
      = Ok (VBinding l, s')
      /\ getValue (VBinding l) s' = Ok (VNum 7, s')).
Proof.
  split; [|split].
  - intros F host f v s cs Hcs Hf. apply composeBindings_constants; assumption.
  - intros F host f v s xs us Hxs Hf. apply composeBindings_current; assumption.
  - destruct (@composeBindings_current Demo.fn Demo.host
                [VNum 3; VBinding 0] [VNum 3; VNum 4] Demo.Add (VNum 7) Demo.four)
      as (l & s' & H1 & H2 & _).
    + repeat constructor.
    + reflexivity.
    + exists l, s'. split; assumption.
Qed.

Lemma composeBindings_applies_combiner_witness :
  (exists l s',
      composeBindings [VNum 3; VNum 4; VFun (KUser Demo.Add)] Demo.empty
      = Ok (VBinding l, s')
      /\ getValue (VBinding l) s' = Ok (VNum 7, s')
      /\ calls s' = calls Demo.empty ++ [(Demo.Add, [VNum 3; VNum 4])])
  /\
  (exists l s',
      composeBindings [VNum 3; VBinding 0; VFun (KUser Demo.Add)] Demo.four
      = Ok (VBinding l, s')
      /\ getValue (VBinding l) s' = Ok (VNum 7, s')
      /\ calls s' = calls Demo.four ++ [(Demo.Add, [VNum 3; VNum 4])]).
Proof.
  split.
  - apply (proj1 composeBindings_applies_combiner
                 Demo.fn Demo.host Demo.Add (VNum 7) Demo.empty
                 [VNum 3; VNum 4]).
    + repeat constructor.
    + reflexivity.
  - apply (proj1 (proj2 composeBindings_applies_combiner)
                 Demo.fn Demo.host Demo.Add (VNum 7) Demo.four
                 [VNum 3; VBinding 0] [VNum 3; VNum 4]).
    + repeat constructor.
    + reflexivity.
Defined.

(** The end-to-end scenario of spec 8: updating the binding to 10 takes the
    composed binding to 13. *)
Example compose_then_update :
  bind (composeBindings [VNum 3; VBinding 0; VFun (KUser Demo.Add)])
       (fun r => bind (setBinding 0 (VNum 10)) (fun _ => getValue r))
       Demo.four
  = Ok (VNum 13,
        mkState [CSource (VNum 10); CSource (VNum 3);
                 CJoined [1; 0] (VArr [VNum 3; VNum 10]);
                 CMapped 2 (KSpread (VFun (KUser Demo.Add))) (VNum 13)]
                [(Demo.Add, [VNum 3; VNum 4]); (Demo.Add, [VNum 3; VNum 10])]).
Proof. vm_compute. reflexivity. Qed.

(** C2.  On a plain value [x], [mapBinding(x, f)] calls [f] exactly once,
    on [x], and returns a new binding holding [f(x)] whose setter nobody
    holds, so that it shows [f(x)] for good.  On a binding it returns that
    binding mapped through [f]: whatever happens later, the result shows
    [f] of what the source shows. *)
Theorem mapBinding_plain_or_tracking (F : Type) (host : Host F) (s : state F) :
  (forall (x : value F) (g : F) (v : value F),
      isBinding x = false ->
      call_fn g [x] = Ok v ->
      exists n s',
        mapBinding x (KUser g) s = Ok (VBinding n, s')
        /\ calls s' = calls s ++ [(g, [x])]
        /\ heap s' = heap s ++ [CSource v]
        /\ getValue (VBinding n) s' = Ok (v, s')
        /\ (consistent (heap s) ->
            forall s'', evolves (eq n) s' s'' ->
                        getValue (VBinding n) s'' = Ok (v, s'')))
  /\
  (forall (l : loc) (f : closure F) (u w : value F),
      consistent (heap s) ->
      value_at (heap s) l = Some u ->
      eval f [u] = Ok w ->
      exists r s1,
        mapBinding (VBinding l) f s = Ok (r, s1)
        /\ Binding_map l f s = Ok (r, s1)
        /\ getValue r s1 = Ok (w, s1)
        /\ forall sealed s2, evolves sealed s1 s2 ->
             exists u' w',
               getValue (VBinding l) s2 = Ok (u', s2)
               /\ getValue r s2 = Ok (w', s2)
               /\ eval f [u'] = Ok w').
Proof.
  split.
  - intros x g v Hx Hg.
    assert (He : eval (KUser g) [x] = Ok v) by (rewrite eval_user; exact Hg).
    exists (List.length (heap s)),
           (mkState (heap s ++ [CSource v]) (calls s ++ [(g, [x])])).
    split.
    { erewrite mapBinding_plain by eassumption.
      erewrite trace_user by eassumption. reflexivity. }
    split; [reflexivity|]. split; [reflexivity|].
    split; [apply getValue_fresh_source|].
    intros H0 s'' Hev.
    apply (sealed_constant (sealed := eq (List.length (heap s)))
                           (List.length (heap s)) (v := v)
                           (s := mkState (heap s ++ [CSource v])
                                         (calls s ++ [(g, [x])]))).
    + cbn [heap]. apply consistent_snoc; [exact H0 | exact I].
    + cbn [heap]. apply nth_error_snoc.
    + reflexivity.
    + exact Hev.
  - intros l f u w H0 Hu Hf.
    exists (VBinding (List.length (heap s))),
           (mkState (heap s ++ [CMapped l f w]) (calls s ++ trace_of f [u])).
    rewrite mapBinding_framework. erewrite Binding_map_ok by eassumption.
    split; [reflexivity|]. split; [reflexivity|].
    split.
    { apply read_ok. cbn [heap]. apply (value_at_snoc (heap s) (CMapped l f w)). }
    intros sealed s2 Hev.
    eapply mapped_tracks; [ | | exact Hev].
    + cbn [heap]. apply consistent_snoc; [exact H0|]. cbn.
      split; [eapply value_at_lt; eauto|].
      exists u. split; [apply value_at_app, Hu | exact Hf].
    + cbn [heap]. apply nth_error_snoc.
Qed.

Lemma mapBinding_plain_or_tracking_witness :
  (exists n s',
      mapBinding (VNum 5) (KUser Demo.Twice) Demo.empty = Ok (VBinding n, s')
      /\ calls s' = calls Demo.empty ++ [(Demo.Twice, [VNum 5])]
      /\ heap s' = heap Demo.empty ++ [CSource (VNum 10)]
      /\ getValue (VBinding n) s' = Ok (VNum 10, s'))
  /\
  (exists r s1,
      mapBinding (VBinding 0) (KUser Demo.Twice) Demo.five = Ok (r, s1)
      /\ getValue r s1 = Ok (VNum 10, s1)).
Proof.
  split.
  - destruct (proj1 (mapBinding_plain_or_tracking Demo.host Demo.empty)
                    (VNum 5) Demo.Twice (VNum 10) eq_refl eq_refl)
      as (n & s' & H1 & H2 & H3 & H4 & _).
    exists n, s'. repeat split; assumption.
  - destruct (proj2 (mapBinding_plain_or_tracking Demo.host Demo.five)
                    0 (KUser Demo.Twice) (VNum 5) (VNum 10))
      as (r & s1 & H1 & _ & H3 & _).
    + intros [|[|i]] c Hc; [injection Hc as <-; exact I | discriminate..].
    + reflexivity.
    + reflexivity.
    + exists r, s1. split; assumption.
Defined.

(** Spec 8: [mapContainer(container(5), f)] updates to [f(newValue)]. *)
Example map_then_update :
  bind (mapBinding (VBinding 0) (KUser Demo.Twice))
       (fun r => bind (setBinding 0 (VNum 8)) (fun _ => getValue r))
       Demo.five
  = Ok (VNum 16,
        mkState [CSource (VNum 8); CMapped 0 (KUser Demo.Twice) (VNum 16)]
                [(Demo.Twice, [VNum 5]); (Demo.Twice, [VNum 8])]).
Proof. vm_compute. reflexivity. Qed.

(** C3.  [toBinding] returns an input that passes [isBinding] as it is:
    the same object, no allocation.  For an input that fails the test it
    allocates one new source binding holding the input.  Either way the
    result passes the test, so converting twice is converting once. *)
Theorem toBinding_identity_or_fresh
        (F : Type) (host : Host F) (x : value F) (s : state F) :
  (isBinding x = true -> toBinding x s = Ok (x, s))
  /\
  (isBinding x = false ->
   exists n s',
     toBinding x s = Ok (VBinding n, s')
     /\ nth_error (heap s) n = None
     /\ heap s' = heap s ++ [CSource x]
     /\ calls s' = calls s
     /\ getValue (VBinding n) s' = Ok (x, s')
     /\ (consistent (heap s) ->
         forall s'', evolves (eq n) s' s'' ->
                     getValue (VBinding n) s'' = Ok (x, s'')))
  /\
  (exists b s1,
      toBinding x s = Ok (b, s1)
      /\ isBinding b = true
      /\ toBinding b s1 = Ok (b, s1))
  /\
  bind (toBinding x) toBinding s = toBinding x s.
Proof.
  assert (Htwice : exists b s1,
             toBinding x s = Ok (b, s1) /\ isBinding b = true
             /\ toBinding b s1 = Ok (b, s1)).
  { destruct (isBinding x) eqn:Ex.
    - exists x, s. rewrite toBinding_binding by exact Ex. auto.
    - eexists _, _. rewrite toBinding_plain by exact Ex.
      split; [reflexivity|]. split; reflexivity. }
  split; [apply toBinding_binding|].
  split.
  { intros Ex.
    exists (List.length (heap s)), (mkState (heap s ++ [CSource x]) (calls s)).
    split; [apply toBinding_plain, Ex|].
    split; [apply nth_error_fresh|].
    split; [reflexivity|]. split; [reflexivity|].
    split; [apply getValue_fresh_source|].
    intros H0 s'' Hev.
    apply (sealed_constant (sealed := eq (List.length (heap s)))
                           (List.length (heap s)) (v := x)
                           (s := mkState (heap s ++ [CSource x]) (calls s))).
    - cbn [heap]. apply consistent_snoc; [exact H0 | exact I].
    - cbn [heap]. apply nth_error_snoc.
    - reflexivity.
    - exact Hev. }
  split; [exact Htwice|].
  destruct Htwice as (b & s1 & H1 & _ & H2).
  erewrite bind_ok by exact H1. rewrite H1. exact H2.
Qed.

Lemma toBinding_identity_or_fresh_witness :
  toBinding (VBinding 0 : value Demo.fn) Demo.four = Ok (VBinding 0, Demo.four)
  /\
  (exists n s',
      toBinding (VNum 3) Demo.four = Ok (VBinding n, s')
      /\ nth_error (heap Demo.four) n = None
      /\ heap s' = heap Demo.four ++ [CSource (VNum 3)]
      /\ calls s' = calls Demo.four
      /\ getValue (VBinding n) s' = Ok (VNum 3, s')
      /\ forall s'', evolves (eq n) s' s'' ->
                     getValue (VBinding n) s'' = Ok (VNum 3, s'')).
Proof.
  split.
  - exact (proj1 (toBinding_identity_or_fresh Demo.host (VBinding 0) Demo.four)
                 eq_refl).
  - destruct (proj1 (proj2 (toBinding_identity_or_fresh
                              Demo.host (VNum 3) Demo.four)) eq_refl)
      as (n & s' & H1 & H2 & H3 & H4 & H5 & H6).
    exists n, s'. repeat (split; [assumption|]).
    apply H6.
    intros [|[|i]] c Hc; [injection Hc as <-; exact I | discriminate..].
Defined.

(** C4, as the code has it.  [isBinding] is structural: it answers [true]
    exactly for the framework's bindings and for the plain objects that
    have a field named [getValue] and a field named [map], whatever those
    fields hold.  No marker is consulted. *)
Theorem isBinding_is_structural (F : Type) (host : Host F) (v : value F) :
  isBinding v = true <->
  (exists l, v = VBinding l) \/
  (exists l, v = VObj l
             /\ own_property "getValue" l = true
             /\ own_property "map" l = true).
Proof.
  split; [apply isBinding_inv|].
  intros [[l ->]|(l & -> & Hg & Hm)].
  - apply isBinding_framework.
  - rewrite isBinding_object, Hg, Hm. reflexivity.
Qed.

(** Against C4 as stated: the caller's object 0 is not a binding, has
    fields named [getValue] and [map] holding a number and a string, and
    passes the test; [mapBinding] then calls its [map] and fails. *)
Lemma isBinding_accepts_lookalike :
  objects 0 = Some Demo.lookalike
  /\ own_property "getValue" 0 = true
  /\ own_property "map" 0 = true
  /\ isBinding (VObj 0 : value Demo.fn) = true
  /\ toBinding (VObj 0 : value Demo.fn) Demo.empty = Ok (VObj 0, Demo.empty)
  /\ mapBinding (VObj 0) (KUser Demo.Twice) Demo.empty = Throw TypeError.
Proof. repeat split. Qed.

(** C5.  For plain numbers, [lerpBinding(alpha, from, to)] is [mapBinding]
    of [alpha] through the interpolation: it calls no caller function and
    returns a new binding that holds [from + (to - from) * alpha], for any
    [alpha], and keeps holding it. *)
Theorem lerpBinding_number
        (F : Type) (host : Host F) (alpha from to : float) (s : state F) :
  lerpBinding (VNum alpha) (VNum from) (VNum to) s
  = mapBinding (VNum alpha) (KLerp (VNum from) (VNum to)) s
  /\
  exists n s',
    lerpBinding (VNum alpha) (VNum from) (VNum to) s = Ok (VBinding n, s')
    /\ heap s' = heap s ++ [CSource (VNum (from + (to - from) * alpha)%float)]
    /\ calls s' = calls s
    /\ getValue (VBinding n) s'
       = Ok (VNum (from + (to - from) * alpha)%float, s')
    /\ (consistent (heap s) ->
        forall s'', evolves (eq n) s' s'' ->
          getValue (VBinding n) s''
          = Ok (VNum (from + (to - from) * alpha)%float, s'')).
Proof.
  split; [reflexivity|].
  exists (List.length (heap s)),
         (mkState (heap s ++ [CSource (VNum (from + (to - from) * alpha)%float)])
                  (calls s)).
  split.
  { unfold lerpBinding.
    erewrite mapBinding_plain;
      [ | apply isBinding_other; intros; discriminate
        | apply eval_lerp_number ].
    rewrite trace_lerp_number, app_nil_r. reflexivity. }
  split; [reflexivity|]. split; [reflexivity|].
  split; [apply getValue_fresh_source|].
  intros H0 s'' Hev.
  apply (sealed_constant (sealed := eq (List.length (heap s)))
                         (List.length (heap s))
                         (v := VNum (from + (to - from) * alpha)%float)
                         (s := mkState (heap s ++ [CSource (VNum (from + (to - from) * alpha)%float)])
                                       (calls s))).
  - cbn [heap]. apply consistent_snoc; [exact H0 | exact I].
  - cbn [heap]. apply nth_error_snoc.
  - reflexivity.
  - exact Hev.
Qed.

Lemma lerpBinding_number_witness :
  exists n s',
    lerpBinding (VNum 2) (VNum 0) (VNum 10) Demo.empty = Ok (VBinding n, s')
    /\ getValue (VBinding n) s' = Ok (VNum 20, s')
    /\ forall s'', evolves (eq n) s' s'' ->
                   getValue (VBinding n) s'' = Ok (VNum 20, s'').
Proof.
  destruct (proj2 (lerpBinding_number Demo.host 2 0 10 Demo.empty))
    as (n & s' & H1 & _ & _ & H4 & H5).
  exists n, s'. split; [exact H1|]. split; [exact H4|].
  apply H5. exact (@consistent_nil Demo.fn Demo.host).
Defined.

(** C6.  A configuration outside the valid domain (negative [wait],
    negative [maxWait], [maxWait] below [wait]) makes the first render of
    [useDebounceCallback] raise the misuse fault: [debounce] is called
    there, in the memo, and the hook fails exactly when [debounce] does.
    A valid configuration constructs an Idle scheduler, and nothing is
    left for later: [run], [flush] and the timer raise only what the
    callback itself raised. *)
Theorem misuse_reported_at_mount
        (F : Type) (host : Host F) (callback : F) (options : UseDebounceOptions) :
  (((default 0 (wait options) < 0)%Z \/
    exists m, maxWait options = Some m
              /\ ((m < 0)%Z \/ (m < default 0 (wait options))%Z)) ->
   useDebounceCallback_mount callback options = Throw MisuseFault)
  /\
  (valid_config (default 0%Z (wait options)) (maxWait options) = true ->
   exists h, useDebounceCallback_mount callback options = Ok h
             /\ timer (debounced h) = Idle)
  /\
  (forall e,
      useDebounceCallback_mount callback options = Throw e
      <-> debounce (wait options) options = Throw e)
  /\
  (forall (h : Hook) (ev : event) e,
      react ev h = Throw e -> exists args, wrapped h args = Throw e).
Proof.
  split; [|split; [|split]].
  - intros Hbad. apply invalid_config in Hbad.
    rewrite mount_spec, Hbad. reflexivity.
  - intros Hok. rewrite mount_spec, Hok. eexists. split; reflexivity.
  - intros e. apply mount_throw_iff.
  - intros h ev e. apply react_throw.
Qed.

Lemma misuse_reported_at_mount_witness :
  useDebounceCallback_mount Demo.Echo (mkOptions (Some (-1)%Z) None None None)
  = Throw MisuseFault
  /\ useDebounceCallback_mount Demo.Echo
       (mkOptions (Some 100%Z) None None (Some 50%Z))
     = Throw MisuseFault
  /\ exists h,
       useDebounceCallback_mount Demo.Echo
         (mkOptions (Some 100%Z) None None (Some 300%Z)) = Ok h
       /\ timer (debounced h) = Idle.
Proof.
  split; [|split].
  - apply (proj1 (misuse_reported_at_mount Demo.host Demo.Echo
                    (mkOptions (Some (-1)%Z) None None None))).
    left. reflexivity.
  - apply (proj1 (misuse_reported_at_mount Demo.host Demo.Echo
                    (mkOptions (Some 100%Z) None None (Some 50%Z)))).
    right. exists 50%Z. split; [reflexivity|]. right. reflexivity.
  - apply (proj1 (proj2 (misuse_reported_at_mount Demo.host Demo.Echo
                    (mkOptions (Some 100%Z) None None (Some 300%Z))))).
    reflexivity.
Defined.

(** C7.  Whatever happened to a hook made by [useDebounceCallback], when
    its component unmounts the cleanup of [useUnmountEffect] runs
    [debounced.cancel()]: nothing is pending any more, and no passing of
    time invokes the callback again. *)
Theorem unmount_cancels_pending
        (F : Type) (host : Host F) (callback : F) (options : UseDebounceOptions)
        (h0 : Hook) (es : list event) (h : Hook) :
  useDebounceCallback_mount callback options = Ok h0 ->
  reaches h0 es h ->
  debounced (unmount h) = cancel (debounced h)
  /\ pending (debounced (unmount h)) = false
  /\ lastResult (debounced (unmount h)) = lastResult (debounced h)
  /\ forall nows : list Z,
       exists h', ticks nows (unmount h) = Ok h'
                  /\ history (debounced h') = history (debounced h).
Proof.
  intros Hm Hr.
  destruct (mount_latest _ _ Hm) as (Hl0 & Hmounted0 & _).
  destruct (reaches_latest Hr Hl0) as [_ Hmounted].
  assert (Hd : debounced (unmount h) = cancel (debounced h)).
  { unfold unmount. rewrite Hmounted, Hmounted0.
    destruct (unmountRef h) as [[] ?]. reflexivity. }
  split; [exact Hd|]. rewrite Hd.
  split; [unfold pending; rewrite cancel_idle; reflexivity|].
  split; [apply cancel_result|].
  intros nows. exists (unmount h). split.
  - apply ticks_idle. rewrite Hd. apply cancel_idle.
  - rewrite Hd. apply cancel_history.
Qed.

Lemma unmount_cancels_pending_witness :
  exists h,
    reaches (mkHook (Demo.Echo, Demo.Echo)
                    (mkDebounced 100 None false true Idle VUndefined [])
                    (KCancel, KCancel) true)
            [ERun 0 [VNum 1]; ERun 10 [VNum 2]] h
    /\ pending (debounced h) = true
    /\ pending (debounced (unmount h)) = false
    /\ exists h', ticks [50; 110; 500]%Z (unmount h) = Ok h'
                  /\ history (debounced h') = history (debounced h).
Proof.
  eexists. split; [|split].
  - eapply reaches_cons; [reflexivity|].
    eapply reaches_cons; [reflexivity|]. apply reaches_nil.
  - reflexivity.
  - match goal with
    | |- pending (debounced (unmount ?h)) = _ /\ _ =>
        destruct (@unmount_cancels_pending Demo.fn Demo.host Demo.Echo
                    (mkOptions (Some 100%Z) None None None)
                    (mkHook (Demo.Echo, Demo.Echo)
                       (mkDebounced 100 None false true Idle VUndefined [])
                       (KCancel, KCancel) true)
                    [ERun 0 [VNum 1]; ERun 10 [VNum 2]] h)
          as (_ & Hp & _ & Ht)
    end.
    + reflexivity.
    + eapply reaches_cons; [reflexivity|].
      eapply reaches_cons; [reflexivity|]. apply reaches_nil.
    + split; [exact Hp | apply Ht].
Defined.

(** C8.  On a hook made by [useDebounceCallback], whatever happened
    since, a call of [run] that returns answers the result of the most
    recent completed invocation of the callback ([undefined] when there was
    none).  A call that is only scheduled (a burst is under way, or the
    leading edge is off) always returns, invokes nothing and so answers the
    result of an earlier invocation; a call on the leading edge answers
    the result the callback just gave. *)
Theorem run_returns_latest_result
        (F : Type) (host : Host F) (callback : F) (options : UseDebounceOptions)
        (h0 : Hook) (es : list event) (h : Hook)
        (now : Z) (args : list (value F)) :
  useDebounceCallback_mount callback options = Ok h0 ->
  reaches h0 es h ->
  (forall r h', react (ERun now args) h = Ok (r, h') ->
                r = latest_result (debounced h'))
  /\
  (pending (debounced h) = true \/ cfg_leading (debounced h) = false ->
   exists h', react (ERun now args) h = Ok (latest_result (debounced h), h')
              /\ history (debounced h') = history (debounced h)
              /\ pending (debounced h') = true)
  /\
  (pending (debounced h) = false -> cfg_leading (debounced h) = true ->
   forall v, wrapped h args = Ok v ->
   exists h', react (ERun now args) h = Ok (v, h')
              /\ history (debounced h') = history (debounced h) ++ [(args, v)]).
Proof.
  intros Hm Hr.
  destruct (mount_latest _ _ Hm) as (Hl0 & _).
  destruct (reaches_latest Hr Hl0) as [Hl _].
  split; [|split].
  - intros r h' E. cbn in E.
    destruct (run _ _ _ _) as [[r' d]|] eqn:Erun; [|discriminate].
    injection E as <- <-. cbn.
    destruct (run_latest _ _ _ Hl Erun) as [Hl' ->]. exact Hl'.
  - intros Hsched. cbn. unfold run, pending in *.
    destruct (timer (debounced h)) as [|pargs fa bs].
    + destruct Hsched as [|Hlead]; [discriminate|]. rewrite Hlead.
      eexists. cbn. rewrite Hl. split; [reflexivity|]. split; reflexivity.
    + eexists. cbn. rewrite Hl. split; [reflexivity|]. split; reflexivity.
  - intros Hidle Hlead v Hv. cbn. unfold run, pending in *.
    destruct (timer (debounced h)) as [|pargs fa bs]; [|discriminate].
    rewrite Hlead. unfold invoke_now. rewrite Hv.
    eexists. cbn. split; [reflexivity|]. reflexivity.
Qed.

Lemma run_returns_latest_result_witness :
  exists h,
    reaches (mkHook (Demo.Echo, Demo.Echo)
                    (mkDebounced 100 None false true Idle VUndefined [])
                    (KCancel, KCancel) true)
            [ERun 0 [VNum 1]; ERun 10 [VNum 2]; ETick 110] h
    /\ latest_result (debounced h) = VNum 2
    /\ exists h', react (ERun 120 [VNum 3]) h = Ok (VNum 2, h')
                  /\ history (debounced h') = history (debounced h).
Proof.
  eexists. split; [|split].
  - eapply reaches_cons; [reflexivity|].
    eapply reaches_cons; [reflexivity|].
    eapply reaches_cons; [reflexivity|]. apply reaches_nil.
  - reflexivity.
  - match goal with
    | |- exists h', react _ ?h = _ /\ _ =>
        destruct (@run_returns_latest_result Demo.fn Demo.host Demo.Echo
                    (mkOptions (Some 100%Z) None None None)
                    (mkHook (Demo.Echo, Demo.Echo)
                       (mkDebounced 100 None false true Idle VUndefined [])
                       (KCancel, KCancel) true)
                    [ERun 0 [VNum 1]; ERun 10 [VNum 2]; ETick 110] h
                    120%Z [VNum 3])
          as (_ & Hs & _)
    end.
    + reflexivity.
    + eapply reaches_cons; [reflexivity|].
      eapply reaches_cons; [reflexivity|].
      eapply reaches_cons; [reflexivity|]. apply reaches_nil.
    + destruct Hs as (h' & H1 & H2 & _); [right; reflexivity|].
      exists h'. split; [exact H1 | exact H2].
Defined.

Section NumericLaws.
Local Open Scope float_scope.

(** C9, as the code has it.  In exact arithmetic [blend] is one minus the
    product of the opacities [1 - t]: [blend()] is 0, [blend(t)] is [t],
    the order of the arguments does not matter and 0 is neutral.  On the
    doubles the program computes with, the product is taken from the left
    and rounded at each step: [blend()] is 0 and a leading 0 changes
    nothing, and the other laws hold up to rounding only. *)
Theorem blend_laws :
  ((forall ts : list Qc,
       Numeric.blend ts = (1 - Numeric.opacity_product ts)%Qc)
   /\ Numeric.blend (@nil Qc) = 0%Qc
   /\ (forall t : Qc, Numeric.blend [t] = t)
   /\ (forall ts ts' : list Qc,
          Permutation ts ts' -> Numeric.blend ts = Numeric.blend ts')
   /\ (forall x : Qc, Numeric.blend [0%Qc; x] = x)
   /\ (forall x : Qc, Numeric.blend [x; 0%Qc] = x))
  /\
  ((forall ts : list float,
       Numeric.blend ts
       = (1 - fold_left (fun result t => result * (1 - t)) ts 1)%float)
   /\ Numeric.blend (@nil float) = 0%float
   /\ (forall ts : list float, Numeric.blend (0%float :: ts) = Numeric.blend ts)).
Proof.
  split.
  - split; [exact Exact.blend_product|].
    split; [reflexivity|].
    split.
    { intros t. rewrite Exact.blend_product.
      change (Numeric.opacity_product [t]) with ((1 - t) * 1)%Qc. ring. }
    split.
    { intros ts ts' Hp. rewrite !Exact.blend_product.
      rewrite (Exact.opacity_product_perm Hp). reflexivity. }
    split.
    { intros x. rewrite Exact.blend_product.
      change (Numeric.opacity_product [0%Qc; x])
        with ((1 - 0) * ((1 - x) * 1))%Qc. ring. }
    { intros x. rewrite Exact.blend_product.
      change (Numeric.opacity_product [x; 0%Qc])
        with ((1 - x) * ((1 - 0) * 1))%Qc. ring. }
  - split; [reflexivity|].
    split; [exact Double.blend_nil | exact Double.blend_zero_head].
Qed.

Lemma blend_laws_witness :
  Numeric.blend [Q2Qc (1 # 2); Q2Qc (1 # 4)]
  = Numeric.blend [Q2Qc (1 # 4); Q2Qc (1 # 2)].
Proof.
  apply (proj1 (proj2 (proj2 (proj2 (proj1 blend_laws))))).
  apply perm_swap.
Defined.

(** Against C9 as stated, on doubles: [blend(0.1)] is
    0.09999999999999998, so is [blend(0, 0.1)], and the order of the
    arguments shows in the last place. *)
Lemma blend_rounds_on_doubles :
  Numeric.blend [0.1%float] = 0x1.9999999999998p-4%float
  /\ PrimFloat.eqb (Numeric.blend [0.1%float]) 0.1%float = false
  /\ PrimFloat.eqb (Numeric.blend [0%float; 0.1%float]) 0.1%float = false
  /\ PrimFloat.eqb (Numeric.blend [0.1; 0.1; 0.3])
                   (Numeric.blend [0.1; 0.3; 0.1]) = false.
Proof. vm_compute. repeat split. Qed.

(** C10, as the code has it.  [map] divides by [fromMax - fromMin] without
    a test.  In exact arithmetic, for [fromMax <> fromMin], it sends
    [fromMin] to [toMin] and [fromMax] to [toMax], and the divisor is zero
    exactly when [fromMax = fromMin].  On doubles nothing is raised: a zero
    divisor yields an infinity or NaN, and the end points are met up to
    rounding only. *)
Theorem map_endpoints :
  ((forall fromMin fromMax toMin toMax : Qc,
       fromMax <> fromMin ->
       Numeric.map fromMin fromMin fromMax toMin toMax = toMin
       /\ Numeric.map fromMax fromMin fromMax toMin toMax = toMax)
   /\ (forall fromMin fromMax : Qc,
          Numeric.map_divisor fromMin fromMax = 0%Qc <-> fromMax = fromMin))
  /\
  ((forall value fromMin fromMax toMin toMax : float,
       Numeric.map value fromMin fromMax toMin toMax
       = ((value - fromMin) * (toMax - toMin) / (fromMax - fromMin) + toMin)%float)
   /\ Numeric.map 1 2 2 0 1 = neg_infinity
   /\ Numeric.map 2 2 2 0 1 = nan
   /\ Numeric.map 0 0 1 0.5 0.1 = 0.5%float).
Proof.
  split.
  - split.
    + intros fromMin fromMax toMin toMax Hne.
      split; [apply Exact.map_low | apply Exact.map_high]; exact Hne.
    + exact Exact.map_divisor_zero.
  - split; [reflexivity|].
    split; [exact Double.map_zero_divisor_infinite|].
    split; [exact Double.map_zero_divisor_nan | exact Double.map_low_exact_here].
Qed.

Lemma map_endpoints_witness :
  Numeric.map (Q2Qc 1) (Q2Qc 1) (Q2Qc 3) (Q2Qc 10) (Q2Qc 20) = Q2Qc 10
  /\ Numeric.map (Q2Qc 3) (Q2Qc 1) (Q2Qc 3) (Q2Qc 10) (Q2Qc 20) = Q2Qc 20.
Proof.
  apply (proj1 (proj1 map_endpoints)).
  intro E. apply (f_equal this) in E. discriminate E.
Defined.

(** Against C10 as stated, on doubles: with [fromMax = 1 <> 0 = fromMin],
    [map(1, 0, 1, 0.5, 0.1)] is 0.09999999999999998, not 0.1. *)
Lemma map_high_rounds_on_doubles :
  PrimFloat.eqb 1 0 = false
  /\ Numeric.map 1 0 1 0.5 0.1 = 0x1.9999999999998p-4%float
  /\ PrimFloat.eqb (Numeric.map 1 0 1 0.5 0.1) 0.1%float = false.
Proof. vm_compute. repeat split. Qed.

End NumericLaws.

(* ================================================================== *)
(** ** More about the binding functions *)
(* ================================================================== *)

Section BindingLaws.
Context {F : Type} {host : Host F}.

Local Abbreviation value := (value F).
Local Abbreviation state := (state F).

(** *** Where [toBinding] puts the inputs of [composeBindings] *)

(** An input and the location [values.map(toBinding)] gives it: its own
    when it is a binding, a new source cell holding it otherwise. *)
Lemma mapM_toBinding_places (xs us : list value) :
  forall s : state,
  Forall2 (fun x u => current (heap s) x = Some u) xs us ->
  exists ls extra,
    mapM toBinding xs s
    = Ok (List.map VBinding ls, mkState (heap s ++ extra) (calls s))
    /\ Forall2 (fun l u => value_at (heap s ++ extra) l = Some u) ls us
    /\ Forall2 (fun x l =>
                  x = VBinding l
                  \/ (isBinding x = false /\ List.length (heap s) <= l
                      /\ nth_error (heap s ++ extra) l = Some (CSource x)))
               xs ls.
Proof.
  revert us.
  induction xs as [|x xs IH]; intros us s H;
    inversion H as [|x' u xs' us' Hx Hrest]; subst.
  - exists [], []. cbn. rewrite app_nil_r. destruct s.
    split; [reflexivity|]. split; constructor.
  - cbn [mapM]. unfold current in Hx.
    destruct (isBinding x) eqn:Eb.
    + destruct x as [| | | | | | |l|l]; try discriminate.
      destruct (IH _ _ Hrest) as (ls & extra & Hm & Hv & Hp).
      exists (l :: ls), extra.
      erewrite bind_ok by (apply toBinding_binding, Eb).
      erewrite bind_ok by exact Hm.
      split; [reflexivity|]. split.
      * constructor; [apply value_at_app, Hx | exact Hv].
      * constructor; [left; reflexivity | exact Hp].
    + injection Hx as <-.
      set (s1 := mkState (heap s ++ [CSource x]) (calls s)).
      assert (Hrest1 : Forall2 (fun x u => current (heap s1) x = Some u) xs us').
      { subst s1. cbn [heap]. clear - Hrest.
        induction Hrest; constructor; auto using current_app. }
      destruct (IH _ s1 Hrest1) as (ls & extra & Hm & Hv & Hp).
      exists (List.length (heap s) :: ls), (CSource x :: extra).
      erewrite bind_ok by (apply toBinding_plain, Eb).
      erewrite bind_ok by exact Hm.
      cbn [heap calls s1] in *. rewrite <- app_assoc in *. cbn [app] in *.
      assert (Hhead : nth_error (heap s ++ CSource x :: extra)
                                (List.length (heap s)) = Some (CSource x)).
      { rewrite nth_error_app2 by lia. rewrite Nat.sub_diag. reflexivity. }
      split; [reflexivity|]. split.
      * constructor; [|exact Hv]. unfold value_at. rewrite Hhead. reflexivity.
      * constructor.
        -- right. split; [exact Eb|]. split; [lia | exact Hhead].
        -- clear - Hp.
           induction Hp as [|x' l xs' ls' Hx' _ IHp]; constructor; [|exact IHp].
           destruct Hx' as [->|(Hb & Hl & Hn)]; [left; reflexivity|].
           right. split; [exact Hb|]. split; [|exact Hn].
           rewrite length_app in Hl. cbn in Hl. lia.
Qed.

Lemma Forall2_chain {A B C} (P : A -> B -> Prop) (Q : B -> C -> Prop)
      (R : A -> C -> Prop) (xs : list A) (ls : list B) (vs : list C) :
  (forall x l v, P x l -> Q l v -> R x v) ->
  Forall2 P xs ls -> Forall2 Q ls vs -> Forall2 R xs vs.
Proof.
  intros HR HP. revert vs. induction HP as [|x l xs ls Hx _ IH]; intros vs HQ;
    inversion HQ; subst; constructor; eauto.
Qed.

(** *** Failures *)

Lemma mapBinding_plain_fails (x : value) (f : closure F) (s : state) e :
  isBinding x = false ->
  (mapBinding x f s = Throw e <-> eval f [x] = Throw e).
Proof.
  intros Hx. unfold mapBinding. rewrite Hx. unfold bind at 1.
  rewrite apply_spec. destruct (eval f [x]) as [v|e'].
  - split; discriminate.
  - split; intros E; injection E as ->; reflexivity.
Qed.

(** *** Existing bindings are left alone *)

Lemma toBinding_appends (x b : value) (s s' : state) :
  toBinding x s = Ok (b, s') ->
  (exists extra, heap s' = heap s ++ extra) /\ calls s' = calls s.
Proof.
  unfold toBinding. destruct (isBinding x).
  - intros E. injection E as _ <-.
    split; [exists []; apply eq_sym, app_nil_r | reflexivity].
  - intros E. cbn in E. injection E as _ <-. cbn. split; [eauto | reflexivity].
Qed.

Lemma mapM_toBinding_appends (xs bs : list value) (s s' : state) :
  mapM toBinding xs s = Ok (bs, s') ->
  (exists extra, heap s' = heap s ++ extra) /\ calls s' = calls s.
Proof.
  revert bs s s'. induction xs as [|x xs IH]; intros bs s s'; cbn [mapM].
  - intros E. injection E as _ <-.
    split; [exists []; apply eq_sym, app_nil_r | reflexivity].
  - intros (b & s1 & Hb & E)%bind_inv.
    apply bind_inv in E as (bs' & s2 & Hm & E). injection E as _ <-.
    apply toBinding_appends in Hb as [[e1 H1] C1].
    apply IH in Hm as [[e2 H2] C2].
    split; [|congruence].
    exists (e1 ++ e2). rewrite H2, H1, app_assoc. reflexivity.
Qed.

Lemma mapBinding_appends (x r : value) (f : closure F) (s s' : state) :
  mapBinding x f s = Ok (r, s') ->
  (exists extra, heap s' = heap s ++ extra)
  /\ (exists more, calls s' = calls s ++ more).
Proof.
  unfold mapBinding. destruct (isBinding x).
  - destruct x; cbn [invoke_map]; intros E;
      try (unfold call_method, throw in E; discriminate).
    + unfold call_method, call_value, call_user, throw in E.
      destruct (objects l) as [fields|]; [|discriminate].
      destruct (lookup_field "map" fields) as [[]|]; try discriminate.
      destruct k; try discriminate.
      destruct (call_fn _ _); [|discriminate].
      injection E as _ <-. cbn.
      split; [exists []; apply eq_sym, app_nil_r | eauto].
    + apply Binding_map_inv in E as (u & v & _ & _ & _ & -> & ->). eauto.
  - intros (v & s1 & (_ & Hh & Hc)%apply_inv & E)%bind_inv.
    cbn in E. injection E as _ <-. cbn. rewrite Hh, Hc. eauto.
Qed.

Lemma composeBindings_appends (values : list value) (r : value) (s s' : state) :
  composeBindings values s = Ok (r, s') ->
  (exists extra, heap s' = heap s ++ extra)
  /\ (exists more, calls s' = calls s ++ more).
Proof.
  unfold composeBindings, pop.
  intros (bs & s1 & Hm & E)%bind_inv.
  apply bind_inv in E as (joined & s2 & Hj & E).
  apply mapM_toBinding_appends in Hm as [[e1 H1] C1].
  apply joinBindings_inv in Hj as (ls & vs & _ & -> & H2 & C2).
  cbn [invoke_map] in E.
  apply Binding_map_inv in E as (u & v & _ & _ & _ & H3 & C3).
  split.
  - eexists. rewrite H3, H2, H1, <- !app_assoc. reflexivity.
  - eexists. rewrite C3, C2, C1. reflexivity.
Qed.

(** *** What [composeBindings] can raise *)

Lemma mapM_toBinding_total (xs : list value) (s : state) :
  exists bs s', mapM toBinding xs s = Ok (bs, s').
Proof.
  revert s. induction xs as [|x xs IH]; intros s; cbn [mapM].
  - eexists _, _. reflexivity.
  - assert (exists b s1, toBinding x s = Ok (b, s1)) as (b & s1 & Hb).
    { unfold toBinding. destruct (isBinding x); eexists _, _; reflexivity. }
    destruct (IH s1) as (bs & s2 & Hm).
    erewrite bind_ok by exact Hb. erewrite bind_ok by exact Hm.
    eexists _, _. reflexivity.
Qed.

Lemma mapM_binding_loc_throw (bs : list value) (s : state) e :
  mapM binding_loc bs s = Throw e -> e = TypeError.
Proof.
  revert s. induction bs as [|b bs IH]; intros s; cbn [mapM]; [discriminate|].
  unfold bind at 1. destruct (binding_loc b s) as [[l s1]|e'] eqn:Eb.
  - unfold bind at 1. destruct (mapM binding_loc bs s1) as [[ls s2]|e'] eqn:Em.
    + discriminate.
    + intros E. injection E as <-. eapply IH, Em.
  - intros E. injection E as <-.
    destruct b; try (cbn in Eb; unfold throw in Eb; congruence).
    unfold binding_loc, bind, cell_at in Eb.
    destruct (nth_error (heap s) l); [discriminate|congruence].
Qed.

Lemma mapM_read_throw (ls : list loc) (s : state) e :
  mapM read ls s = Throw e -> e = TypeError.
Proof.
  revert s. induction ls as [|l ls IH]; intros s; cbn [mapM]; [discriminate|].
  unfold bind at 1. destruct (read l s) as [[v s1]|e'] eqn:Er.
  - unfold bind at 1. destruct (mapM read ls s1) as [[vs s2]|e'] eqn:Em.
    + discriminate.
    + intros E. injection E as <-. eapply IH, Em.
  - intros E. injection E as <-.
    unfold read, bind, cell_at in Er.
    destruct (nth_error (heap s) l); [discriminate|congruence].
Qed.

Lemma joinBindings_throw (bs : list value) (s : state) e :
  joinBindings bs s = Throw e -> e = TypeError.
Proof.
  unfold joinBindings. unfold bind at 1.
  destruct (mapM binding_loc bs s) as [[ls s1]|e'] eqn:Eb.
  - unfold bind at 1. destruct (mapM read ls s1) as [[vs s2]|e'] eqn:Er.
    + discriminate.
    + intros E. injection E as <-. eapply mapM_read_throw, Er.
  - intros E. injection E as <-. eapply mapM_binding_loc_throw, Eb.
Qed.

End BindingLaws.

(* ================================================================== *)
(** ** More about the hooks *)
(* ================================================================== *)

Section HookLaws.
Context {F : Type} {host : Host F}.

Local Abbreviation value := (value F).
Local Abbreviation state := (state F).
Local Abbreviation Hook := (@Hook F).

(** *** [useLatest] *)

Lemma useLatest_keeps {T} (same predicate : T -> T -> bool) (val : T)
      (slot : option (T * T)) :
  (forall a b, same a b = true -> a = b) ->
  match slot with Some p => latest_inv predicate p | None => True end ->
  snd (useLatest same predicate val slot) = val
  /\ latest_inv predicate (useLatest same predicate val slot)
  /\ (fst (useLatest same predicate val slot) = val
      \/ exists p, slot = Some p
                   /\ fst (useLatest same predicate val slot) = fst p
                   /\ (snd p = val \/ predicate (fst p) val = true)).
Proof.
  intros Hsame Hinv. unfold useLatest, latest_inv in *.
  destruct slot as [[cur dep]|]; cbn [fst snd] in *.
  - destruct (same dep val) eqn:Es; cbn [negb].
    + apply Hsame in Es. subst dep. split; [reflexivity|].
      split; [exact Hinv|]. right. exists (cur, val). cbn. auto.
    + destruct (predicate cur val) eqn:Ep; cbn [negb].
      * split; [reflexivity|]. split; [auto|].
        right. exists (cur, dep). cbn. auto.
      * auto.
  - split; [reflexivity|]. split; [|left];
    destruct (predicate val val); cbn; auto.
Qed.

Lemma useLatest_identity {T} (same predicate : T -> T -> bool) (val : T)
      (slot : option (T * T)) :
  (forall a b, same a b = true -> a = b) ->
  (forall a b, predicate a b = true -> a = b) ->
  match slot with Some p => fst p = snd p | None => True end ->
  useLatest same predicate val slot = (val, val).
Proof.
  intros Hsame Hpred Hinv. unfold useLatest.
  destruct slot as [[cur dep]|]; cbn in *.
  - subst dep. destruct (same cur val) eqn:Es; cbn.
    + apply Hsame in Es. subst. reflexivity.
    + destruct (predicate cur val) eqn:Ep; cbn; [|reflexivity].
      apply Hpred in Ep. subst. reflexivity.
  - destruct (predicate val val); reflexivity.
Qed.

Lemma useLatest_sticky {T} (same predicate : T -> T -> bool) (val : T)
      (p : T * T) :
  predicate (fst p) val = true ->
  fst (useLatest same predicate val (Some p)) = fst p.
Proof.
  intros Hp. unfold useLatest. destruct p as [cur dep]. cbn in *.
  destruct (same dep val); cbn; [reflexivity|]. rewrite Hp. reflexivity.
Qed.

Lemma renders_keep_latest (callbacks : list F) :
  (forall a b : F, same_fn a b = true -> a = b) ->
  forall slot : option (F * F),
  match slot with Some p => fst p = snd p | None => True end ->
  match fold_left (fun slot c => Some (useLatest same_fn isStrictEqual c slot))
                  callbacks slot with
  | Some p => fst p = snd p
  | None => True
  end.
Proof.
  intros Hsame. induction callbacks as [|c rest IH]; intros slot Hs.
  - exact Hs.
  - cbn [fold_left]. apply IH.
    rewrite (@useLatest_identity F same_fn isStrictEqual c slot Hsame Hsame Hs).
    reflexivity.
Qed.

(** *** The debounced callback is the one of the latest render *)

Lemma react_callbackRef (e : event) (h h' : Hook) (r : value) (c : F) :
  (forall a b : F, same_fn a b = true -> a = b) ->
  callbackRef h = (c, c) ->
  react e h = Ok (r, h') ->
  callbackRef h' = (latest_callback c [e], latest_callback c [e]).
Proof.
  intros Hsame Hc. destruct e as [now args| | | |cb opts|now]; cbn.
  - destruct (run _ _ _ _) as [[r' d]|]; [|discriminate].
    intros X. injection X as _ <-. exact Hc.
  - intros X. injection X as _ <-. exact Hc.
  - destruct (flush _ _) as [[r' d]|]; [|discriminate].
    intros X. injection X as _ <-. exact Hc.
  - intros X. injection X as _ <-. exact Hc.
  - intros X. injection X as _ <-. cbn. rewrite Hc.
    apply useLatest_identity; [exact Hsame | exact Hsame | reflexivity].
  - destruct (expire _ _ _) as [d|]; [|discriminate].
    intros X. injection X as _ <-. exact Hc.
Qed.

Lemma reaches_callbackRef (h : Hook) (es : list event) (h' : Hook) :
  (forall a b : F, same_fn a b = true -> a = b) ->
  reaches h es h' ->
  forall c, callbackRef h = (c, c) ->
  callbackRef h' = (latest_callback c es, latest_callback c es).
Proof.
  intros Hsame. induction 1 as [h|h e r h1 es h2 Hstep _ IH]; intros c Hc.
  - exact Hc.
  - apply IH. eapply react_callbackRef; eauto.
Qed.

(** *** The configuration is that of the first render *)

Lemma invoke_now_config invoke (args : list value) (d d1 : @Debounced F) :
  invoke_now invoke args d = Ok d1 -> config d1 = config d.
Proof.
  unfold invoke_now. destruct (invoke args); [|discriminate].
  intros E. injection E as <-. reflexivity.
Qed.

Lemma react_config (e : event) (h h' : Hook) (r : value) :
  react e h = Ok (r, h') -> config (debounced h') = config (debounced h).
Proof.
  destruct e as [now args| | | |cb opts|now]; cbn.
  - unfold run. destruct (timer (debounced h)).
    + destruct (cfg_leading (debounced h)).
      * destruct (invoke_now _ _ _) as [d1|] eqn:E; [|discriminate].
        intros X. injection X as _ <-. cbn.
        apply invoke_now_config in E. exact E.
      * intros X. injection X as _ <-. reflexivity.
    + intros X. injection X as _ <-. reflexivity.
  - intros X. injection X as _ <-. cbn. unfold cancel.
    destruct (timer (debounced h)); reflexivity.
  - unfold flush. destruct (timer (debounced h)).
    + intros X. injection X as _ <-. reflexivity.
    + destruct (invoke_now _ _ _) as [d1|] eqn:E; [|discriminate].
      intros X. injection X as _ <-. cbn.
      apply invoke_now_config in E. exact E.
  - intros X. injection X as _ <-. reflexivity.
  - intros X. injection X as _ <-. reflexivity.
  - unfold expire. destruct (timer (debounced h)).
    + intros X. injection X as _ <-. reflexivity.
    + destruct (_ <=? _)%Z; [|intros X; injection X as _ <-; reflexivity].
      destruct (cfg_trailing _).
      * destruct (invoke_now _ _ _) as [d1|] eqn:E; [|discriminate].
        intros X. injection X as _ <-. cbn.
        apply invoke_now_config in E. exact E.
      * intros X. injection X as _ <-. reflexivity.
Qed.

Lemma reaches_config (h : Hook) (es : list event) (h' : Hook) :
  reaches h es h' -> config (debounced h') = config (debounced h).
Proof.
  induction 1 as [h|h e r h1 es h2 Hstep _ IH]; [reflexivity|].
  rewrite IH. eapply react_config, Hstep.
Qed.

(** *** [useUpdateEffect] *)

Variable D : Type.
Variable same_deps : D -> D -> bool.

Lemma useUpdateEffect_first (effect : F) (dependencies : option D) (s : state) :
  useUpdateEffect same_deps effect dependencies None s
  = Ok (mkUpdateSlot true dependencies VUndefined, s).
Proof. reflexivity. Qed.

Lemma useUpdateEffect_later (effect : F) (dependencies : option D)
      (sl : UpdateSlot D) (v : value) (s : state) :
  isMounted sl = true ->
  (forall k, lastCleanup sl <> VFun k) ->
  call_fn effect [] = Ok v ->
  useUpdateEffect same_deps effect dependencies (Some sl) s
  = Ok (mkUpdateSlot true dependencies
          (if effect_fires same_deps (Some sl) dependencies then v
           else lastCleanup sl),
        mkState (heap s)
                (calls s ++ rerun_effects same_deps (lastDeps sl)
                                          [(effect, dependencies)])).
Proof.
  intros Hm Hc Hv. unfold useUpdateEffect. cbn [rerun_effects effect_fires].
  destruct (match lastDeps sl, dependencies with
            | Some old, Some new => negb (same_deps old new)
            | _, _ => true
            end) eqn:Ef.
  - assert (Hcl : run_last_cleanup (lastCleanup sl) s = Ok (tt, s)).
    { unfold run_last_cleanup. destruct (lastCleanup sl); try reflexivity.
      exfalso. exact (Hc k eq_refl). }
    erewrite bind_ok by exact Hcl.
    rewrite Hm. unfold update_callback, bind, call_user. rewrite Hv.
    cbn. reflexivity.
  - cbn. rewrite Hm, app_nil_r. destruct s. reflexivity.
Qed.

Lemma update_renders_later (renders : list (F * option D)) :
  Forall (fun r => exists v, call_fn (fst r) [] = Ok v
                             /\ forall k, v <> VFun k) renders ->
  forall (sl : UpdateSlot D) (s : state),
  isMounted sl = true ->
  (forall k, lastCleanup sl <> VFun k) ->
  exists sl',
    update_renders same_deps renders (Some sl) s
    = Ok (Some sl',
          mkState (heap s)
                  (calls s ++ rerun_effects same_deps (lastDeps sl) renders))
    /\ isMounted sl' = true.
Proof.
  induction 1 as [|[effect deps] rest (v & Hv & Hnf) _ IH]; intros sl s Hm Hc.
  - exists sl. cbn. rewrite app_nil_r. destruct s. auto.
  - cbn [update_renders fst] in *.
    erewrite bind_ok by (apply useUpdateEffect_later; eassumption).
    set (sl1 := mkUpdateSlot true deps
                  (if effect_fires same_deps (Some sl) deps then v
                   else lastCleanup sl)).
    set (s1 := mkState (heap s)
                 (calls s ++ rerun_effects same_deps (lastDeps sl)
                                           [(effect, deps)])).
    destruct (IH sl1 s1) as (sl' & Hr & Hm').
    { reflexivity. }
    { unfold sl1. cbn [lastCleanup].
      destruct (effect_fires _ _ _); assumption. }
    exists sl'. rewrite Hr. split; [|exact Hm'].
    unfold s1, sl1. cbn [heap calls lastDeps rerun_effects].
    rewrite <- !app_assoc. cbn [app]. try rewrite app_nil_r. reflexivity.
Qed.

End HookLaws.

(* ================================================================== *)
(** ** More exact arithmetic *)
(* ================================================================== *)

Module ExactLaws.
Import Numeric.
Local Open Scope Qc_scope.

Lemma opacity_product_app (xs ys : list Qc) :
  opacity_product (xs ++ ys) = opacity_product xs * opacity_product ys.
Proof.
  induction xs as [|x xs IH].
  - change (opacity_product ys = 1 * opacity_product ys). ring.
  - change ((1 - x) * opacity_product (xs ++ ys)
            = (1 - x) * opacity_product xs * opacity_product ys).
    rewrite IH. ring.
Qed.

Lemma opacity_product_unit (ts : list Qc) :
  Forall (fun t => 0 <= t /\ t <= 1) ts ->
  0 <= opacity_product ts /\ opacity_product ts <= 1.
Proof.
  induction 1 as [|t ts [H0 H1] _ [IH0 IH1]].
  - split; discriminate.
  - change (opacity_product (t :: ts)) with ((1 - t) * opacity_product ts).
    assert (A0 : 0 <= 1 - t).
    { apply Qcle_minus_iff in H1. exact H1. }
    assert (A1 : 1 - t <= 1).
    { apply Qcle_minus_iff. replace (1 + - (1 - t)) with t by ring. exact H0. }
    split.
    + replace 0 with (0 * opacity_product ts) by ring.
      apply Qcmult_le_compat_r; assumption.
    + apply Qcle_trans with (1 * opacity_product ts).
      * apply Qcmult_le_compat_r; assumption.
      * replace (1 * opacity_product ts) with (opacity_product ts) by ring.
        exact IH1.
Qed.

Lemma map_is_lerp (v fromMin fromMax toMin toMax : Qc) :
  fromMax <> fromMin ->
  map v fromMin fromMax toMin toMax
  = lerp toMin toMax ((v - fromMin) / (fromMax - fromMin)).
Proof.
  intros Hne. Exact.exact_ops. field.
  intro E. apply Hne, Exact.Qc_sub_zero, E.
Qed.

Lemma map_round_trip (v fromMin fromMax toMin toMax : Qc) :
  fromMax <> fromMin ->
  toMax <> toMin ->
  map (map v fromMin fromMax toMin toMax) toMin toMax fromMin fromMax = v.
Proof.
  intros Hf Ht. Exact.exact_ops. field.
  split; intro E; [apply Hf | apply Ht]; apply Exact.Qc_sub_zero, E.
Qed.

Lemma map_lerp_inverse (a b t : Qc) :
  b <> a ->
  map (lerp a b t) a b 0 1 = t.
Proof.
  intros Hne. Exact.exact_ops. field.
  intro E. apply Hne, Exact.Qc_sub_zero, E.
Qed.

End ExactLaws.

(* ================================================================== *)
(** ** Further properties of [src/index.ts] *)
(* ================================================================== *)

(** X1.  The binding [composeBindings] returns follows its inputs: as long
    as the cells it allocated itself are written by nobody else, whatever
    happens to the rest of the heap, reading the result gives the combiner
    applied to the inputs' values at that time. *)
Theorem composeBindings_follows_inputs
        (F : Type) (host : Host F) (xs us : list (value F)) (f : F)
        (v : value F) (s : state F) :
  consistent (heap s) ->
  Forall2 (fun x u => current (heap s) x = Some u) xs us ->
  call_fn f us = Ok v ->
  exists r s1,
    composeBindings (xs ++ [VFun (KUser f)]) s = Ok (r, s1)
    /\ forall s2,
        evolves (fun l => List.length (heap s) <= l < List.length (heap s1))
                s1 s2 ->
        exists us' w',
          Forall2 (fun x u' => current (heap s2) x = Some u') xs us'
          /\ call_fn f us' = Ok w'
          /\ getValue r s2 = Ok (w', s2).
Proof.
  intros H0 Hxs Hf.
  destruct (mapM_toBinding_places s Hxs) as (ls & extra & Hm & Hv & Hp).
  set (h1 := heap s ++ extra) in *.
  set (j := List.length h1).
  set (K := KSpread (VFun (KUser f))).
  set (s1 := mkState (h1 ++ [CJoined ls (VArr us)] ++ [CMapped j K v])
                     (calls s ++ [(f, us)])).
  assert (Hrun : composeBindings (xs ++ [VFun (KUser f)]) s
                 = Ok (VBinding (S j), s1)).
  { unfold composeBindings. rewrite pop_snoc.
    erewrite bind_ok by exact Hm.
    erewrite bind_ok by (apply joinBindings_ok with (vs := us); exact Hv).
    cbn [invoke_map heap calls].
    erewrite Binding_map_ok;
      [ | cbn [heap]; apply value_at_snoc
        | cbn [cached]; rewrite eval_spread_user; exact Hf ].
    cbn [heap calls cached]. erewrite trace_spread_user by exact Hf.
    subst s1 j h1. rewrite length_app. cbn [List.length].
    rewrite Nat.add_1_r, <- app_assoc. reflexivity. }
  exists (VBinding (S j)), s1. split; [exact Hrun|].
  intros s2 Hev.
  assert (H1 : consistent (heap s1)).
  { eapply evolves_keeps; [exact H0|].
    eapply composeBindings_evolves with (sealed := fun _ => False). exact Hrun. }
  edestruct evolves_keeps as [H2 P]; [exact H1 | exact Hev |].
  assert (Hj : nth_error (heap s1) j = Some (CJoined ls (VArr us))).
  { subst s1. cbn [heap]. rewrite nth_error_app2 by (subst j; lia).
    subst j. rewrite Nat.sub_diag. reflexivity. }
  assert (HSj : nth_error (heap s1) (S j) = Some (CMapped j K v)).
  { subst s1. cbn [heap]. rewrite nth_error_app2 by (subst j; lia).
    subst j. replace (S (List.length h1) - List.length h1) with 1 by lia.
    reflexivity. }
  destruct (P _ _ HSj) as (cm & Hcm & Hsm & _).
  destruct cm as [|jm Km w'|]; cbn in Hsm; try contradiction.
  destruct Hsm as [<- <-].
  destruct (P _ _ Hj) as (cj & Hcj & Hsj & _).
  destruct cj as [| |ls' c']; cbn in Hsj; try contradiction. subst ls'.
  destruct (H2 _ _ Hcm) as (_ & u & Hu & Hk).
  destruct (H2 _ _ Hcj) as (_ & vs' & Hvs' & ->).
  assert (u = VArr vs') as ->.
  { unfold value_at in Hu. rewrite Hcj in Hu. cbn in Hu. congruence. }
  unfold K in Hk. rewrite eval_spread_user in Hk.
  exists vs', w'. split; [|split; [exact Hk|]].
  - eapply Forall2_chain; [|exact Hp|exact Hvs'].
    intros x l u' [->|(Hb & Hl & Hn)] Hl'.
    + unfold current. rewrite isBinding_framework. exact Hl'.
    + unfold current. rewrite Hb. f_equal.
      assert (Hn1 : nth_error (heap s1) l = Some (CSource x)).
      { subst s1. cbn [heap]. rewrite nth_error_app1; [exact Hn|].
        apply nth_error_Some. congruence. }
      destruct (P _ _ Hn1) as (c & Hc & _ & Hkeep).
      rewrite (Hkeep x) in Hc; [| |reflexivity].
      * unfold value_at in Hl'. rewrite Hc in Hl'. cbn in Hl'. congruence.
      * split; [exact Hl|]. apply nth_error_Some. congruence.
  - cbn [getValue]. apply read_ok. unfold value_at. rewrite Hcm. reflexivity.
Qed.

Lemma composeBindings_follows_inputs_witness :
  exists r s1,
    composeBindings [VNum 3; VBinding 0; VFun (KUser Demo.Add)] Demo.four
    = Ok (r, s1)
    /\ forall s2,
        evolves (fun l => List.length (heap Demo.four) <= l < List.length (heap s1))
                s1 s2 ->
        exists us' w',
          Forall2 (fun x u' => current (heap s2) x = Some u')
                  [VNum 3; VBinding 0] us'
          /\ call_fn Demo.Add us' = Ok w'
          /\ getValue r s2 = Ok (w', s2).
Proof.
  apply (@composeBindings_follows_inputs Demo.fn Demo.host
           [VNum 3; VBinding 0] [VNum 3; VNum 4] Demo.Add (VNum 7) Demo.four).
  - intros [|[|i]] c Hc; [injection Hc as <-; exact I | discriminate..].
  - repeat constructor.
  - reflexivity.
Defined.

(** X2.  [mapBinding] composes: mapping the result of [mapBinding(b, f)]
    through [g] gives a binding that starts at [g(f(u))] for the value [u]
    of [b], and at any later time shows [g(f(u'))] for the value [u'] that
    [b] shows then. *)
Theorem mapBinding_composes
        (F : Type) (host : Host F) (l : loc) (f g : closure F)
        (u v w : value F) (s : state F) :
  consistent (heap s) ->
  value_at (heap s) l = Some u ->
  eval f [u] = Ok v ->
  eval g [v] = Ok w ->
  exists r1 s1 r2 s2,
    mapBinding (VBinding l) f s = Ok (r1, s1)
    /\ mapBinding r1 g s1 = Ok (r2, s2)
    /\ getValue r2 s2 = Ok (w, s2)
    /\ forall sealed s3, evolves sealed s2 s3 ->
         exists u' v' w',
           getValue (VBinding l) s3 = Ok (u', s3)
           /\ eval f [u'] = Ok v'
           /\ eval g [v'] = Ok w'
           /\ getValue r2 s3 = Ok (w', s3).
Proof.
  intros H0 Hu Hf Hg.
  set (n := List.length (heap s)).
  set (s1 := mkState (heap s ++ [CMapped l f v]) (calls s ++ trace_of f [u])).
  set (s2 := mkState (heap s1 ++ [CMapped n g w]) (calls s1 ++ trace_of g [v])).
  assert (Hn : value_at (heap s1) n = Some v)
    by (apply (value_at_snoc (heap s) (CMapped l f v))).
  assert (R1 : mapBinding (VBinding l) f s = Ok (VBinding n, s1)).
  { rewrite mapBinding_framework. erewrite Binding_map_ok by eassumption.
    reflexivity. }
  assert (R2 : mapBinding (VBinding n) g s1 = Ok (VBinding (S n), s2)).
  { rewrite mapBinding_framework. erewrite Binding_map_ok by eassumption.
    subst s2 s1 n. cbn [heap]. rewrite length_app. cbn [List.length].
    rewrite Nat.add_1_r. reflexivity. }
  exists (VBinding n), s1, (VBinding (S n)), s2.
  split; [exact R1|]. split; [exact R2|].
  assert (HSn : nth_error (heap s2) (S n) = Some (CMapped n g w)).
  { subst s2. cbn [heap]. rewrite nth_error_app2
      by (subst s1 n; cbn [heap]; rewrite length_app; cbn; lia).
    subst s1 n. cbn [heap]. rewrite length_app. cbn [List.length].
    replace (S (List.length (heap s)) - (List.length (heap s) + 1)) with 0 by lia.
    reflexivity. }
  assert (Hnn : nth_error (heap s2) n = Some (CMapped l f v)).
  { subst s2. cbn [heap]. rewrite nth_error_app1
      by (subst s1 n; cbn [heap]; rewrite length_app; cbn; lia).
    subst s1 n. cbn [heap]. apply nth_error_snoc. }
  split.
  { apply read_ok. unfold value_at. rewrite HSn. reflexivity. }
  intros sealed s3 Hev.
  assert (H2 : consistent (heap s2)).
  { eapply evolves_keeps with (sealed := sealed); [exact H0|].
    eapply evolves_trans; eapply mapBinding_evolves; eassumption. }
  destruct (mapped_tracks _ H2 HSn Hev) as (v' & w' & Gv & Gw & Ew).
  destruct (mapped_tracks _ H2 Hnn Hev) as (u' & v'' & Gu & Gv' & Ev).
  rewrite Gv in Gv'. injection Gv' as <-.
  exists u', v', w'. auto.
Qed.

Lemma mapBinding_composes_witness :
  exists r1 s1 r2 s2,
    mapBinding (VBinding 0) (KUser Demo.Twice) Demo.five = Ok (r1, s1)
    /\ mapBinding r1 (KUser Demo.Twice) s1 = Ok (r2, s2)
    /\ getValue r2 s2 = Ok (VNum 20, s2).
Proof.
  destruct (@mapBinding_composes Demo.fn Demo.host 0
              (KUser Demo.Twice) (KUser Demo.Twice)
              (VNum 5) (VNum 10) (VNum 20) Demo.five)
    as (r1 & s1 & r2 & s2 & H1 & H2 & H3 & _).
  - intros [|[|i]] c Hc; [injection Hc as <-; exact I | discriminate..].
  - reflexivity.
  - reflexivity.
  - reflexivity.
  - exists r1, s1, r2, s2. split; [exact H1|]. split; [exact H2 | exact H3].
Defined.

(** X3.  On a binding [alpha] that holds a number, [lerpBinding(alpha,
    from, to)] with numbers [from] and [to] calls no caller function and
    returns a binding that shows [lerp(from, to, a)] for the number [a]
    that [alpha] shows, at creation and at any later time. *)
Theorem lerpBinding_follows_alpha
        (F : Type) (host : Host F) (l : loc) (a from to : float) (s : state F) :
  consistent (heap s) ->
  value_at (heap s) l = Some (VNum a) ->
  exists r s1,
    lerpBinding (VBinding l) (VNum from) (VNum to) s = Ok (r, s1)
    /\ getValue r s1 = Ok (VNum (Numeric.lerp from to a), s1)
    /\ calls s1 = calls s
    /\ forall sealed s2 a',
         evolves sealed s1 s2 ->
         getValue (VBinding l) s2 = Ok (VNum a', s2) ->
         getValue r s2 = Ok (VNum (Numeric.lerp from to a'), s2).
Proof.
  intros H0 Ha.
  set (k := KLerp (VNum from) (VNum to) : closure F).
  set (w := VNum (Numeric.lerp from to a) : value F).
  set (s1 := mkState (heap s ++ [CMapped l k w]) (calls s)).
  assert (R : lerpBinding (VBinding l) (VNum from) (VNum to) s
              = Ok (VBinding (List.length (heap s)), s1)).
  { unfold lerpBinding. rewrite mapBinding_framework.
    erewrite Binding_map_ok; [ | exact Ha | apply eval_lerp_number ].
    rewrite trace_lerp_number, app_nil_r. reflexivity. }
  exists (VBinding (List.length (heap s))), s1.
  split; [exact R|].
  assert (Hn : nth_error (heap s1) (List.length (heap s)) = Some (CMapped l k w))
    by apply nth_error_snoc.
  split; [apply read_ok; unfold value_at; rewrite Hn; reflexivity|].
  split; [reflexivity|].
  intros sealed s2 a' Hev Ga.
  assert (H1 : consistent (heap s1)).
  { eapply evolves_keeps with (sealed := sealed); [exact H0|].
    eapply lerpBinding_evolves. exact R. }
  destruct (mapped_tracks _ H1 Hn Hev) as (u' & w' & Gu & Gw & Ew).
  rewrite Ga in Gu. injection Gu as <-.
  unfold k in Ew. rewrite eval_lerp_number in Ew. injection Ew as <-.
  exact Gw.
Qed.

Lemma lerpBinding_follows_alpha_witness :
  exists r s1,
    lerpBinding (VBinding 0) (VNum 0) (VNum 10) Demo.four = Ok (r, s1)
    /\ getValue r s1 = Ok (VNum 40, s1)
    /\ calls s1 = calls Demo.four.
Proof.
  destruct (@lerpBinding_follows_alpha Demo.fn Demo.host 0 4 0 10 Demo.four)
    as (r & s1 & H1 & H2 & H3 & _).
  - intros [|[|i]] c Hc; [injection Hc as <-; exact I | discriminate..].
  - reflexivity.
  - exists r, s1. split; [exact H1|]. split; [exact H2 | exact H3].
Defined.

(** X4.  When [from] is an object with a [Lerp] method and [alpha] is a
    plain value, [lerpBinding(alpha, from, to)] calls [from.Lerp(to, alpha)]
    exactly once, with [from] as receiver, and returns a new source binding
    holding what the method answered. *)
Theorem lerpBinding_calls_Lerp
        (F : Type) (host : Host F) (o : loc) (fields : list (string * value F))
        (m : F) (alpha to v : value F) (s : state F) :
  isBinding alpha = false ->
  objects o = Some fields ->
  lookup_field "Lerp" fields = Some (VFun (KUser m)) ->
  call_fn m [VObj o; to; alpha] = Ok v ->
  lerpBinding alpha (VObj o) to s
  = Ok (VBinding (List.length (heap s)),
        mkState (heap s ++ [CSource v])
                (calls s ++ [(m, [VObj o; to; alpha])])).
Proof.
  intros Ha Ho Hl Hm. unfold lerpBinding.
  assert (E : eval (KLerp (VObj o) to) [alpha] = Ok v).
  { unfold eval, apply, call_method, call_value, call_user. cbn.
    rewrite Ho, Hl, Hm. reflexivity. }
  assert (T : trace_of (KLerp (VObj o) to) [alpha] = [(m, [VObj o; to; alpha])]).
  { unfold trace_of, apply, call_method, call_value, call_user. cbn.
    rewrite Ho, Hl, Hm. reflexivity. }
  erewrite mapBinding_plain by eassumption. rewrite T. reflexivity.
Qed.

Lemma lerpBinding_calls_Lerp_witness :
  @lerpBinding Sample.fn Sample.host (VNum 0.5) (VObj 0) (VObj 1) Sample.empty
  = Ok (VBinding 0,
        mkState [CSource (VObj 2)]
                [(Sample.Mix, [VObj 0; VObj 1; VNum 0.5])]).
Proof.
  apply (@lerpBinding_calls_Lerp Sample.fn Sample.host 0
           [("X", VNum 0); ("Lerp", VFun (KUser Sample.Mix))]%string
           Sample.Mix (VNum 0.5) (VObj 1) (VObj 2) Sample.empty).
  - reflexivity.
  - reflexivity.
  - reflexivity.
  - reflexivity.
Defined.

(** X5.  When [from] is not a number and has no [Lerp] method (it is not
    an object, or an object without such a field), [lerpBinding] on a plain
    [alpha] raises a TypeError: the callback runs at once, and nothing is
    allocated. *)
Theorem lerpBinding_needs_Lerp
        (F : Type) (host : Host F) (alpha from to : value F) (s : state F) :
  isBinding alpha = false ->
  (forall a, from <> VNum a) ->
  (forall o fields, from = VObj o -> objects o = Some fields ->
                    lookup_field "Lerp" fields = None) ->
  lerpBinding alpha from to s = Throw TypeError.
Proof.
  intros Ha Hn Ho. unfold lerpBinding, mapBinding. rewrite Ha.
  unfold bind at 1. rewrite apply_spec.
  destruct from as [| | |a| | | |o|];
    try reflexivity; [exfalso; exact (Hn a eq_refl)|].
  unfold eval, apply, call_method. cbn.
  destruct (objects o) as [fields|] eqn:Eo; [|reflexivity].
  rewrite (Ho o fields eq_refl Eo). reflexivity.
Qed.

Lemma lerpBinding_needs_Lerp_witness :
  @lerpBinding Sample.fn Sample.host (VNum 0.5) (VObj 4) (VObj 1) Sample.empty
  = Throw TypeError.
Proof.
  apply (@lerpBinding_needs_Lerp Sample.fn Sample.host).
  - reflexivity.
  - intros a E. discriminate E.
  - intros o fields E Ho. injection E as <-.
    cbn in Ho. injection Ho as <-. reflexivity.
Defined.

(** X6.  On a plain object that passes [isBinding], [mapBinding] neither
    calls the callback nor creates a binding: it calls the object's own
    [map] once, handing it the callback, and returns what that answers (or
    raises what it raises). *)
Theorem mapBinding_defers_to_own_map
        (F : Type) (host : Host F) (o : loc) (fields : list (string * value F))
        (m : F) (callback : closure F) (s : state F) :
  objects o = Some fields ->
  own_property "getValue" o = true ->
  lookup_field "map" fields = Some (VFun (KUser m)) ->
  mapBinding (VObj o) callback s
  = match call_fn m [VObj o; VFun callback] with
    | Ok v => Ok (v, mkState (heap s) (calls s ++ [(m, [VObj o; VFun callback])]))
    | Throw e => Throw e
    end.
Proof.
  intros Ho Hg Hm. unfold mapBinding.
  assert (Hb : isBinding (VObj o : value F) = true).
  { rewrite isBinding_object, Hg. unfold own_property. rewrite Ho, Hm. reflexivity. }
  rewrite Hb. cbn [invoke_map]. unfold call_method. rewrite Ho, Hm. reflexivity.
Qed.

Lemma mapBinding_defers_to_own_map_witness :
  @mapBinding Sample.fn Sample.host (VObj 3) (KUser Sample.Note) Sample.empty
  = Ok (VObj 3,
        mkState [] [(Sample.Remap, [VObj 3; VFun (KUser Sample.Note)])]).
Proof.
  apply (@mapBinding_defers_to_own_map Sample.fn Sample.host 3
           [("getValue", VFun (KUser Sample.Peek));
            ("map", VFun (KUser Sample.Remap))]%string
           Sample.Remap (KUser Sample.Note) Sample.empty).
  - reflexivity.
  - reflexivity.
  - reflexivity.
Defined.

(** X7.  On a plain value [mapBinding] raises exactly what the callback
    raises on it, and returns whenever the callback does. *)
Theorem mapBinding_raises_with_callback
        (F : Type) (host : Host F) (x : value F) (f : closure F)
        (s : state F) (e : exn F) :
  isBinding x = false ->
  (mapBinding x f s = Throw e <-> eval f [x] = Throw e)
  /\ ((exists r s', mapBinding x f s = Ok (r, s'))
      <-> exists v, eval f [x] = Ok v).
Proof.
  intros Hx. split; [apply mapBinding_plain_fails, Hx|].
  split.
  - intros (r & s' & E). destruct (eval f [x]) as [v|e'] eqn:Ev; [eauto|].
    eapply mapBinding_plain_fails in Ev; [|exact Hx].
    rewrite E in Ev. discriminate Ev.
  - intros (v & Ev). do 2 eexists. apply mapBinding_plain; eassumption.
Qed.

Lemma mapBinding_raises_with_callback_witness :
  mapBinding (VStr "a") (KUser Demo.Twice) Demo.empty = Throw TypeError.
Proof.
  apply (proj1 (@mapBinding_raises_with_callback Demo.fn Demo.host
                  (VStr "a") (KUser Demo.Twice) Demo.empty TypeError eq_refl)).
  reflexivity.
Defined.

(** X8.  [toBinding], [mapBinding], [lerpBinding] and [composeBindings]
    only ever allocate: when one of them returns, the heap is the old heap
    with new cells after it, so no existing binding has changed, and the
    recorded calls are the old ones followed by new ones. *)
Theorem helpers_only_allocate
        (F : Type) (host : Host F) (r : value F) (s s' : state F) :
  (exists x, toBinding x s = Ok (r, s'))
  \/ (exists x f, mapBinding x f s = Ok (r, s'))
  \/ (exists alpha from to, lerpBinding alpha from to s = Ok (r, s'))
  \/ (exists values, composeBindings values s = Ok (r, s')) ->
  (exists extra, heap s' = heap s ++ extra)
  /\ (exists more, calls s' = calls s ++ more).
Proof.
  intros [(x & E)|[(x & f & E)|[(alpha & from & to & E)|(values & E)]]].
  - apply toBinding_appends in E as [Hh Hc]. split; [exact Hh|].
    exists []. rewrite app_nil_r. exact Hc.
  - eapply mapBinding_appends, E.
  - eapply mapBinding_appends, E.
  - eapply composeBindings_appends, E.
Qed.

Lemma helpers_only_allocate_witness :
  (exists extra,
      [CSource (VNum 4); CSource (VNum 3);
       CJoined [1; 0] (VArr [VNum 3; VNum 4]);
       CMapped 2 (KSpread (VFun (KUser Demo.Add))) (VNum 7)]
      = heap Demo.four ++ extra)
  /\ (exists more, [(Demo.Add, [VNum 3; VNum 4])] = calls Demo.four ++ more).
Proof.
  apply (@helpers_only_allocate Demo.fn Demo.host (VBinding 3) Demo.four
           (mkState [CSource (VNum 4); CSource (VNum 3);
                     CJoined [1; 0] (VArr [VNum 3; VNum 4]);
                     CMapped 2 (KSpread (VFun (KUser Demo.Add))) (VNum 7)]
                    [(Demo.Add, [VNum 3; VNum 4])])).
  right. right. right.
  exists [VNum 3; VBinding 0; VFun (KUser Demo.Add)].
  vm_compute. reflexivity.
Defined.

(** X9.  [composeBindings] takes its last argument for the combiner
    without looking at it: when the last argument is not a function (or
    there is no argument at all) the call raises a TypeError, at the
    latest when the derived binding computes its first value. *)
Theorem composeBindings_needs_a_combiner
        (F : Type) (host : Host F) (values : list (value F)) (s : state F) :
  (forall k, last values VUndefined <> VFun k) ->
  composeBindings values s = Throw TypeError.
Proof.
  intros Hlast. unfold composeBindings, pop.
  destruct (mapM_toBinding_total (removelast values) s) as (bs & s1 & Hm).
  erewrite bind_ok by exact Hm. unfold bind at 1.
  destruct (joinBindings bs s1) as [[joined s2]|e] eqn:Ej.
  - apply joinBindings_inv in Ej as (ls & vs & _ & -> & H2 & _).
    cbn [invoke_map]. unfold Binding_map.
    erewrite bind_ok
      by (apply read_ok; rewrite H2; apply value_at_snoc).
    unfold bind at 1, apply, call_value. cbn [cached].
    destruct (last values VUndefined) as [| | | | |k| | |] eqn:El;
      try reflexivity.
    exfalso. exact (Hlast k eq_refl).
  - apply joinBindings_throw in Ej as ->. reflexivity.
Qed.

Lemma composeBindings_needs_a_combiner_witness :
  composeBindings [VNum 3; VNum 4] Demo.empty = Throw TypeError
  /\ composeBindings [] Demo.empty = Throw TypeError.
Proof.
  split.
  - apply (@composeBindings_needs_a_combiner Demo.fn Demo.host
             [VNum 3; VNum 4] Demo.empty).
    intros k E. discriminate E.
  - apply (@composeBindings_needs_a_combiner Demo.fn Demo.host [] Demo.empty).
    intros k E. discriminate E.
Defined.

(** X10.  The combiner runs while [composeBindings] runs: when it raises
    on the inputs' current values, [composeBindings] raises the same and
    returns no binding. *)
Theorem composeBindings_raises_with_combiner
        (F : Type) (host : Host F) (xs us : list (value F)) (f : F)
        (e : exn F) (s : state F) :
  Forall2 (fun x u => current (heap s) x = Some u) xs us ->
  call_fn f us = Throw e ->
  composeBindings (xs ++ [VFun (KUser f)]) s = Throw e.
Proof.
  intros Hxs Hf. unfold composeBindings. rewrite pop_snoc.
  destruct (mapM_toBinding_current s Hxs) as (ls & extra & Hm & Hv).
  erewrite bind_ok by exact Hm.
  erewrite bind_ok by (apply joinBindings_ok with (vs := us); exact Hv).
  cbn [invoke_map heap calls]. unfold Binding_map.
  erewrite bind_ok by (apply read_ok; cbn [heap]; apply value_at_snoc).
  cbn [cached]. unfold bind at 1. rewrite apply_spec.
  rewrite eval_spread_user, Hf. reflexivity.
Qed.

Lemma composeBindings_raises_with_combiner_witness :
  composeBindings [VStr "a"; VBinding 0; VFun (KUser Demo.Add)] Demo.four
  = Throw TypeError.
Proof.
  apply (@composeBindings_raises_with_combiner Demo.fn Demo.host
           [VStr "a"; VBinding 0] [VStr "a"; VNum 4] Demo.Add TypeError
           Demo.four).
  - repeat constructor.
  - reflexivity.
Defined.

(** X11.  The ref of [useLatest]: after a render with [value], provided
    the framework's dependency comparison only equates equal values, the
    ref holds [value] or still holds what it held before, and then the
    predicate took that for [value] (or [value] was the value of the
    render before).  So a custom predicate keeps the older of two values it
    takes for equal. *)
Theorem useLatest_ref_invariant
        (T : Type) (same predicate : T -> T -> bool) (val : T)
        (slot : option (T * T)) :
  (forall a b, same a b = true -> a = b) ->
  match slot with Some p => latest_inv predicate p | None => True end ->
  snd (useLatest same predicate val slot) = val
  /\ latest_inv predicate (useLatest same predicate val slot)
  /\ (fst (useLatest same predicate val slot) = val
      \/ exists p, slot = Some p
                   /\ fst (useLatest same predicate val slot) = fst p
                   /\ (snd p = val \/ predicate (fst p) val = true))
  /\ (forall p, slot = Some p -> predicate (fst p) val = true ->
                fst (useLatest same predicate val slot) = fst p).
Proof.
  intros Hsame Hinv.
  destruct (@useLatest_keeps T same predicate val slot Hsame Hinv) as (A & B & C).
  split; [exact A|]. split; [exact B|]. split; [exact C|].
  intros p -> Hp. apply useLatest_sticky, Hp.
Qed.

Lemma useLatest_ref_invariant_witness :
  snd (useLatest Nat.eqb (fun a b => Nat.eqb (a / 10) (b / 10)) 12
                 (Some (11, 11))) = 12
  /\ fst (useLatest Nat.eqb (fun a b => Nat.eqb (a / 10) (b / 10)) 12
                    (Some (11, 11))) = 11.
Proof.
  destruct (@useLatest_ref_invariant nat Nat.eqb
              (fun a b => Nat.eqb (a / 10) (b / 10)) 12 (Some (11, 11)))
    as (A & _ & _ & D).
  - intros a b H. apply Nat.eqb_eq, H.
  - left. reflexivity.
  - split; [exact A|]. apply (D (11, 11)); reflexivity.
Defined.

(** X12.  With the default predicate [isStrictEqual], the ref of
    [useLatest] holds the callback of the latest render, whatever the
    renders before were given; so does the ref of [useLatestCallback]. *)
Theorem latest_refs_hold_last_callback
        (F : Type) (host : Host F) (callbacks : list F) (callback : F) :
  (forall a b : F, same_fn a b = true -> a = b) ->
  fold_left (fun slot c => Some (useLatest same_fn isStrictEqual c slot))
            (callbacks ++ [callback]) None
  = Some (callback, callback)
  /\ fold_left (fun slot c => Some (useLatestCallback c slot))
               (callbacks ++ [callback]) None
     = Some callback.
Proof.
  intros Hsame. rewrite !fold_left_app. cbn [fold_left]. split.
  - f_equal. apply useLatest_identity; [exact Hsame | exact Hsame |].
    apply renders_keep_latest; [exact Hsame | exact I].
  - reflexivity.
Qed.

Lemma latest_refs_hold_last_callback_witness :
  fold_left (fun slot c => Some (useLatest same_fn isStrictEqual c slot))
            [Demo.Echo; Demo.Twice; Demo.Add] None
  = Some (Demo.Add, Demo.Add)
  /\ fold_left (fun slot c => Some (useLatestCallback c slot))
               [Demo.Echo; Demo.Twice; Demo.Add] None
     = Some Demo.Add.
Proof.
  apply (@latest_refs_hold_last_callback Demo.fn Demo.host
           [Demo.Echo; Demo.Twice] Demo.Add).
  intros [] [] H; (reflexivity || discriminate H).
Defined.

(** X13.  The function [useDebounceCallback] hands to [debounce] calls
    [callbackRef.current]: whatever happened since the first render, it
    invokes the callback given to the most recent render, not the one the
    scheduler was created with. *)
Theorem debounced_invokes_latest_callback
        (F : Type) (host : Host F) (callback : F) (options : UseDebounceOptions)
        (h0 : Hook) (es : list event) (h : Hook) (args : list (value F)) :
  (forall a b : F, same_fn a b = true -> a = b) ->
  useDebounceCallback_mount callback options = Ok h0 ->
  reaches h0 es h ->
  wrapped h args = call_fn (latest_callback callback es) args.
Proof.
  intros Hsame Hm Hr. unfold wrapped.
  rewrite (reaches_callbackRef Hsame Hr (c := callback)); [reflexivity|].
  rewrite mount_spec in Hm. destruct (valid_config _ _); [|discriminate].
  injection Hm as <-. reflexivity.
Qed.

Lemma debounced_invokes_latest_callback_witness :
  exists h,
    reaches (mkHook (Demo.Echo, Demo.Echo)
                    (mkDebounced 100 None false true Idle VUndefined [])
                    (KCancel, KCancel) true)
            [ERun 0 [VNum 1]; ERender Demo.Twice no_options; ETick 100] h
    /\ wrapped h [VNum 3] = Ok (VNum 6)
    /\ history (debounced h) = [([VNum 1], VNum 2)].
Proof.
  eexists. split; [|split].
  - eapply reaches_cons; [reflexivity|].
    eapply reaches_cons; [reflexivity|].
    eapply reaches_cons; [reflexivity|]. apply reaches_nil.
  - match goal with
    | |- wrapped ?h _ = _ =>
        rewrite (@debounced_invokes_latest_callback Demo.fn Demo.host Demo.Echo
                   (mkOptions (Some 100%Z) None None None)
                   (mkHook (Demo.Echo, Demo.Echo)
                      (mkDebounced 100 None false true Idle VUndefined [])
                      (KCancel, KCancel) true)
                   [ERun 0 [VNum 1]; ERender Demo.Twice no_options; ETick 100]
                   h [VNum 3])
    end.
    + reflexivity.
    + intros [] [] H; (reflexivity || discriminate H).
    + reflexivity.
    + eapply reaches_cons; [reflexivity|].
      eapply reaches_cons; [reflexivity|].
      eapply reaches_cons; [reflexivity|]. apply reaches_nil.
  - reflexivity.
Defined.

(** X14.  [useDebounceCallback] reads [options] on the first render only
    (the memo has no dependencies): whatever options later renders pass,
    the scheduler keeps the configuration of the first render. *)
Theorem options_read_on_first_render_only
        (F : Type) (host : Host F) (callback : F) (options : UseDebounceOptions)
        (h0 : Hook) (es : list event) (h : Hook) :
  useDebounceCallback_mount callback options = Ok h0 ->
  reaches h0 es h ->
  config (debounced h)
  = (default 0%Z (wait options), maxWait options,
     default false (leading options), default true (trailing options)).
Proof.
  intros Hm Hr. rewrite (reaches_config Hr).
  rewrite mount_spec in Hm. destruct (valid_config _ _); [|discriminate].
  injection Hm as <-. reflexivity.
Qed.

Lemma options_read_on_first_render_only_witness :
  exists h,
    reaches (mkHook (Demo.Echo, Demo.Echo)
                    (mkDebounced 100 None false true Idle VUndefined [])
                    (KCancel, KCancel) true)
            [ERender Demo.Echo (mkOptions (Some 5%Z) (Some true) None None);
             ERun 0 [VNum 1]] h
    /\ config (debounced h) = (100%Z, None, false, true).
Proof.
  eexists. split.
  - eapply reaches_cons; [reflexivity|].
    eapply reaches_cons; [reflexivity|]. apply reaches_nil.
  - match goal with
    | |- config (debounced ?h) = _ =>
        apply (@options_read_on_first_render_only Demo.fn Demo.host Demo.Echo
                 (mkOptions (Some 100%Z) None None None)
                 (mkHook (Demo.Echo, Demo.Echo)
                    (mkDebounced 100 None false true Idle VUndefined [])
                    (KCancel, KCancel) true)
                 [ERender Demo.Echo (mkOptions (Some 5%Z) (Some true) None None);
                  ERun 0 [VNum 1]] h)
    end.
    + reflexivity.
    + eapply reaches_cons; [reflexivity|].
      eapply reaches_cons; [reflexivity|]. apply reaches_nil.
Defined.

(** X15.  [useUpdateEffect] never runs the effect of the first render.
    Over the renders that follow, with effects that return and give no
    cleanup function, the effects that run are exactly those of the
    renders whose dependencies differ from the render before (all of them
    when dependencies are omitted), each once and in order; the heap is
    untouched. *)
Theorem useUpdateEffect_skips_first_render
        (F : Type) (host : Host F) (D : Type) (same_deps : D -> D -> bool)
        (effect : F) (dependencies : option D)
        (rest : list (F * option D)) (s : state F) :
  Forall (fun r => exists v, call_fn (fst r) [] = Ok v
                             /\ forall k, v <> VFun k) rest ->
  exists sl',
    update_renders same_deps ((effect, dependencies) :: rest) None s
    = Ok (Some sl',
          mkState (heap s)
                  (calls s ++ rerun_effects same_deps dependencies rest))
    /\ isMounted sl' = true.
Proof.
  intros Hrest. cbn [update_renders].
  erewrite bind_ok by apply useUpdateEffect_first.
  apply (update_renders_later same_deps Hrest
           (mkUpdateSlot true dependencies VUndefined) s).
  - reflexivity.
  - intros k. discriminate.
Qed.

Lemma useUpdateEffect_skips_first_render_witness :
  exists sl',
    @update_renders Sample.fn Sample.host nat Nat.eqb
      [(Sample.Note, Some 1); (Sample.Note, Some 1); (Sample.Note, Some 2)]
      None Sample.empty
    = Ok (Some sl', mkState [] [(Sample.Note, [])])
    /\ isMounted sl' = true.
Proof.
  apply (@useUpdateEffect_skips_first_render Sample.fn Sample.host nat Nat.eqb
           Sample.Note (Some 1)
           [(Sample.Note, Some 1); (Sample.Note, Some 2)] Sample.empty).
  repeat constructor; exists VUndefined;
    (split; [reflexivity | intros k E; discriminate E]).
Defined.

(** X16.  In exact arithmetic [blend] stays within the range of
    transparencies: for arguments between 0 and 1 the result is between 0
    and 1.  (On doubles each step is rounded; see C9.) *)
Theorem blend_stays_in_range (ts : list Qc) :
  Forall (fun t => (0 <= t)%Qc /\ (t <= 1)%Qc) ts ->
  (0 <= Numeric.blend ts)%Qc /\ (Numeric.blend ts <= 1)%Qc.
Proof.
  intros H. destruct (ExactLaws.opacity_product_unit H) as [P0 P1].
  rewrite Exact.blend_product. split.
  - apply Qcle_minus_iff in P1. exact P1.
  - apply Qcle_minus_iff.
    replace (1 + - (1 - Numeric.opacity_product ts))%Qc
      with (Numeric.opacity_product ts) by ring.
    exact P0.
Qed.

Lemma blend_stays_in_range_witness :
  (0 <= Numeric.blend [Q2Qc (1 # 2); Q2Qc (1 # 4)])%Qc
  /\ (Numeric.blend [Q2Qc (1 # 2); Q2Qc (1 # 4)] <= 1)%Qc.
Proof.
  apply (@blend_stays_in_range [Q2Qc (1 # 2); Q2Qc (1 # 4)]).
  repeat constructor; intro E; discriminate E.
Defined.

(** X17.  In exact arithmetic [blend] can be taken in parts: blending two
    groups of transparencies at once is blending the blends of the groups;
    and a fully transparent layer ([1]) anywhere makes the result [1]. *)
Theorem blend_in_parts :
  (forall xs ys : list Qc,
      Numeric.blend (xs ++ ys)
      = Numeric.blend [Numeric.blend xs; Numeric.blend ys])
  /\ (forall xs ys : list Qc, Numeric.blend (xs ++ 1%Qc :: ys) = 1%Qc).
Proof.
  split; intros xs ys.
  - rewrite (Exact.blend_product [Numeric.blend xs; Numeric.blend ys]).
    change (Numeric.opacity_product [Numeric.blend xs; Numeric.blend ys])
      with ((1 - Numeric.blend xs) * ((1 - Numeric.blend ys) * 1))%Qc.
    rewrite !Exact.blend_product, ExactLaws.opacity_product_app. ring.
  - rewrite Exact.blend_product, ExactLaws.opacity_product_app.
    change (Numeric.opacity_product (1%Qc :: ys))
      with ((1 - 1) * Numeric.opacity_product ys)%Qc.
    ring.
Qed.

(** X18.  In exact arithmetic, for a source range that is not a point,
    [map] is [lerp] over the target range at the position of the value in
    the source range; [map] to [0, 1] undoes [lerp]; and when the target
    range is not a point either, mapping back returns the value. *)
Theorem map_lerp_round_trip (v fromMin fromMax toMin toMax : Qc) :
  fromMax <> fromMin ->
  Numeric.map v fromMin fromMax toMin toMax
  = Numeric.lerp toMin toMax ((v - fromMin) / (fromMax - fromMin))%Qc
  /\ Numeric.map (Numeric.lerp fromMin fromMax v) fromMin fromMax 0%Qc 1%Qc = v
  /\ (toMax <> toMin ->
      Numeric.map (Numeric.map v fromMin fromMax toMin toMax)
                  toMin toMax fromMin fromMax = v).
Proof.
  intros Hf. split; [apply ExactLaws.map_is_lerp, Hf|].
  split; [apply ExactLaws.map_lerp_inverse, Hf|].
  intros Ht. apply ExactLaws.map_round_trip; assumption.
Qed.

Lemma map_lerp_round_trip_witness :
  Numeric.map (Q2Qc 2) (Q2Qc 1) (Q2Qc 3) (Q2Qc 10) (Q2Qc 20)
  = Numeric.lerp (Q2Qc 10) (Q2Qc 20) ((Q2Qc 2 - Q2Qc 1) / (Q2Qc 3 - Q2Qc 1))%Qc
  /\ Numeric.map (Numeric.map (Q2Qc 2) (Q2Qc 1) (Q2Qc 3) (Q2Qc 10) (Q2Qc 20))
                 (Q2Qc 10) (Q2Qc 20) (Q2Qc 1) (Q2Qc 3) = Q2Qc 2.
Proof.
  destruct (@map_lerp_round_trip (Q2Qc 2) (Q2Qc 1) (Q2Qc 3) (Q2Qc 10) (Q2Qc 20))
    as (A & _ & C).
  - intro E. apply (f_equal this) in E. discriminate E.
  - split; [exact A|]. apply C.
    intro E. apply (f_equal this) in E. discriminate E.
Defined.

(** X19.  In exact arithmetic [lerp] meets its end points, [lerp(a, b, 0)]
    is [a] and [lerp(a, b, 1)] is [b], and interpolating between two
    interpolated points is interpolating the positions. *)
Theorem lerp_end_points_and_nesting :
  (forall a b : Qc, Numeric.lerp a b 0%Qc = a /\ Numeric.lerp a b 1%Qc = b)
  /\ (forall a b s t u : Qc,
         Numeric.lerp (Numeric.lerp a b s) (Numeric.lerp a b t) u
         = Numeric.lerp a b (Numeric.lerp s t u)).
Proof.
  split.
  - intros a b. Exact.exact_ops. split; ring.
  - intros a b s t u. Exact.exact_ops. ring.
Qed.
